(** * Closeness centrality (networkx/algorithms/centrality/closeness.py)

    A shallow embedding of [closeness_centrality] and
    [incremental_closeness_centrality].  Python floats are modelled by
    rationals [Q]; Python dicts whose keys are graph nodes by [gmap nat Q]
    (results and previous results) or by association lists with distinct
    keys (distance maps, whose values are summed).  The graph object is
    mutable and aliased ([G_prime = G]), so the incremental function runs
    in a state-and-error monad over the graph. *)

From Stdlib Require Import QArith Qabs Lia ZArith String.
From stdpp Require Import base gmap sets list.

Open Scope string_scope.

(* ================================================================= *)
(** ** Graphs *)

Abbreviation node := nat (only parsing).

(** An edge with its attribute dict ([G[u][v]] in networkx). *)
Record edge := mk_edge { e_u : node; e_v : node; e_attrs : list (string * Q) }.

Record graph := mk_graph {
  g_directed : bool;
  g_nodes : list node;
  g_edges : list edge
}.

(** The arcs of the graph: both orientations of an edge when undirected. *)
Definition arcs (G : graph) : list (node * node * list (string * Q)) :=
  flat_map (fun e =>
    (e_u e, e_v e, e_attrs e) ::
    (if g_directed G then [] else [(e_v e, e_u e, e_attrs e)])) (g_edges G).

Definition adjb (G : graph) (x y : node) : bool :=
  existsb (fun a => Nat.eqb a.1.1 x && Nat.eqb a.1.2 y) (arcs G).

Definition has_edge (G : graph) (x y : node) : bool := adjb G x y.

Definition memb (x : node) (l : list node) : bool := existsb (Nat.eqb x) l.

(** A networkx graph: nodes are dict keys (distinct) and every edge joins
    two nodes of the graph. *)
Definition graph_wf (G : graph) : Prop :=
  NoDup (g_nodes G) /\
  Forall (fun e => e_u e ∈ g_nodes G /\ e_v e ∈ g_nodes G) (g_edges G).

(** [G.reverse()]: the view with every edge turned around. *)
Definition reverse (G : graph) : graph :=
  mk_graph (g_directed G) (g_nodes G)
    (map (fun e => mk_edge (e_v e) (e_u e) (e_attrs e)) (g_edges G)).

(* ================================================================= *)
(** ** Errors and the graph-state monad *)

Inductive nx_error :=
  | NetworkXError (msg : string)   (* raised by closeness.py itself *)
  | NetworkXNotImplemented         (* @not_implemented_for('directed') *)
  | NodeNotFound                   (* shortest-path source not in G *)
  | KeyError                       (* dict lookup of a missing key *)
  | GraphMutationError             (* add_edge / remove_edge refused *)
  | WeightAttributeError.          (* missing weight attribute *)

Inductive result (A : Type) := Ok (a : A) | Err (e : nx_error).
Arguments Ok {A} a.
Arguments Err {A} e.

Definition rbind {A B} (r : result A) (f : A -> result B) : result B :=
  match r with Ok a => f a | Err e => Err e end.

Notation "x <-r r ;; k" := (rbind r (fun x => k))
  (at level 100, r at next level, right associativity).

(** Code that may mutate the (aliased) graph and may raise: an exception
    leaves the graph in whatever state it had reached. *)
Definition M (A : Type) := graph -> result A * graph.

Definition mret {A} (a : A) : M A := fun g => (Ok a, g).
Definition mraise {A} (e : nx_error) : M A := fun g => (Err e, g).
Definition mbind {A B} (m : M A) (f : A -> M B) : M B :=
  fun g => match m g with
           | (Ok a, g') => f a g'
           | (Err e, g') => (Err e, g')
           end.
Definition mget : M graph := fun g => (Ok g, g).
Definition mlift {A} (r : result A) : M A := fun g => (r, g).

Notation "x <- m ;; k" := (mbind m (fun x => k))
  (at level 100, m at next level, right associativity).

(* ================================================================= *)
(** ** Graph collaborator: edge insertion and removal *)

(** [e] joins [u] and [v] (in either orientation when undirected). *)
Definition same_edge (G : graph) (u v : node) (e : edge) : bool :=
  (Nat.eqb (e_u e) u && Nat.eqb (e_v e) v) ||
  (negb (g_directed G) && Nat.eqb (e_u e) v && Nat.eqb (e_v e) u).

(** Modelled from the spec: [G.add_edge(u, v)] (networkx/classes, not in
    this source tree).  The spec (sections 6 and 7) says that inserting a
    duplicate edge fails with a GraphMutationError propagated from the
    graph collaborator; otherwise the edge is added. *)
Definition add_edge (G : graph) (u v : node) : result graph :=
  if has_edge G u v then Err GraphMutationError
  else Ok (mk_graph (g_directed G) (g_nodes G)
                    (g_edges G ++ [mk_edge u v []])).

(** Modelled from the spec: [G.remove_edge(u, v)]; removing an edge that is
    not there fails with a GraphMutationError. *)
Definition remove_edge (G : graph) (u v : node) : result graph :=
  if has_edge G u v
  then Ok (mk_graph (g_directed G) (g_nodes G)
                    (filter (fun e => negb (same_edge G u v e)) (g_edges G)))
  else Err GraphMutationError.

Definition add_edge_m (u v : node) : M unit :=
  fun g => match add_edge g u v with
           | Ok g' => (Ok tt, g')
           | Err e => (Err e, g)
           end.

Definition remove_edge_m (u v : node) : M unit :=
  fun g => match remove_edge g u v with
           | Ok g' => (Ok tt, g')
           | Err e => (Err e, g)
           end.

(* ================================================================= *)
(** ** Shortest-path oracles *)

(** The nodes within [k] hops of [s]. *)
Fixpoint within (G : graph) (s : node) (k : nat) : list node :=
  match k with
  | 0 => [s]
  | S k' =>
      let L := within G s k' in
      filter (fun w => memb w L || existsb (fun x => adjb G x w) L) (g_nodes G)
  end.

(** The least [k <= bound] with [f k], if any. *)
Definition first_level (f : nat -> bool) (bound : nat) : option nat :=
  find f (seq 0 (S bound)).

(** Hop distance from [s] to [w]; a reachable node is reachable within
    [|G|] hops. *)
Definition level_of (G : graph) (s w : node) : option nat :=
  first_level (fun k => memb w (within G s k)) (length (g_nodes G)).

(** Modelled from the spec: [nx.single_source_shortest_path_length]
    (networkx/algorithms/shortest_paths, not in this source tree): "a
    mapping from every reachable node to its distance from the source",
    unweighted hop count; a source that is not a node is refused. *)
Definition single_source_shortest_path_length (G : graph) (s : node)
    : result (list (node * nat)) :=
  if memb s (g_nodes G)
  then Ok (omap (fun w => (fun d => (w, d)) <$> level_of G s w) (g_nodes G))
  else Err NodeNotFound.

Definition attr (key : string) (attrs : list (string * Q)) : option Q :=
  snd <$> find (fun kv => String.eqb kv.1 key) attrs.

Definition Qmin_opt (a b : option Q) : option Q :=
  match a, b with
  | Some x, Some y => Some (if Qle_bool x y then x else y)
  | Some x, None => Some x
  | None, y => y
  end.

Definition dict_get {A} (d : list (node * A)) (n : node) : option A :=
  snd <$> find (fun p => Nat.eqb p.1 n) d.

(** One Bellman-Ford relaxation round over the arcs. *)
Definition relax (G : graph) (key : string) (D : list (node * option Q))
    : list (node * option Q) :=
  map (fun w =>
    (w, foldr (fun a acc =>
              if Nat.eqb a.1.2 w then
                match mjoin (dict_get D a.1.1), attr key a.2 with
                | Some dx, Some wt => Qmin_opt acc (Some (dx + wt)%Q)
                | _, _ => acc
                end
              else acc)
            (mjoin (dict_get D w)) (arcs G)))
    (g_nodes G).

(** Modelled from the spec: [nx.single_source_dijkstra_path_length] with
    [weight=distance]: shortest paths using the numeric edge attribute as
    weight (nonnegative); a missing attribute is a WeightAttributeError. *)
Definition single_source_dijkstra_path_length (G : graph) (s : node)
    (key : string) : result (list (node * Q)) :=
  if negb (memb s (g_nodes G)) then Err NodeNotFound
  else if existsb (fun e => negb (bool_decide (is_Some (attr key (e_attrs e)))))
                  (g_edges G)
  then Err WeightAttributeError
  else
    let D0 := map (fun w => (w, if Nat.eqb w s then Some 0%Q else None))
                  (g_nodes G) in
    let D := Nat.iter (length (g_nodes G)) (relax G key) D0 in
    Ok (omap (fun p => (fun d => (p.1, d)) <$> p.2) D).

(** The unweighted oracle with its integer distances read as numbers. *)
Definition unweighted_path_length (G : graph) (s : node)
    : result (list (node * Q)) :=
  sp <-r single_source_shortest_path_length G s;;
  Ok (map (fun p => (p.1, inject_Z (Z.of_nat p.2))) sp).

(** Lines 108-113: the [path_length] chosen by the [distance] argument. *)
Definition path_length (distance : option string) (G : graph) (s : node)
    : result (list (node * Q)) :=
  match distance with
  | Some key => single_source_dijkstra_path_length G s key
  | None => unweighted_path_length G s
  end.

(* ================================================================= *)
(** ** closeness_centrality (lines 24-134) *)

(** [sum(sp.values())]. *)
Definition sum_values (sp : list (node * Q)) : Q :=
  fold_left (fun acc p => (acc + p.2)%Q) sp 0%Q.

Definition Qnat (n : nat) : Q := inject_Z (Z.of_nat n).

(** Lines 121-130 (repeated verbatim at lines 248-257): the value of one
    node from its distance map [sp] in a graph of [lenG] nodes. *)
Definition node_closeness (sp : list (node * Q)) (lenG : nat)
    (wf_improved : bool) : Q :=
  let totsp := sum_values sp in
  if negb (Qle_bool totsp 0) && Nat.ltb 1 lenG then
    let c := ((Qnat (length sp) - 1) / totsp)%Q in
    if wf_improved
    then (c * ((Qnat (length sp) - 1) / (Qnat lenG - 1)))%Q
    else c
  else 0%Q.

(** [for n in nodes: closeness_centrality[n] = f(n)], building a dict;
    the first exception in iteration order propagates. *)
Fixpoint dict_loop (ns : list node) (f : node -> result Q) (acc : gmap node Q)
    : result (gmap node Q) :=
  match ns with
  | [] => Ok acc
  | n :: ns' => c <-r f n;; dict_loop ns' f (<[n := c]> acc)
  end.

(** The function returns a dict, or a single value when [u] is given. *)
Inductive cc_out := CCDict (m : gmap node Q) | CCValue (c : Q).

Definition closeness_centrality (G0 : graph) (u : option node)
    (distance : option string) (wf_improved : bool) : result cc_out :=
  let G := if g_directed G0 then reverse G0 else G0 in
  let nodes := match u with None => g_nodes G | Some x => [x] end in
  cc <-r dict_loop nodes (fun n =>
          sp <-r path_length distance G n;;
          Ok (node_closeness sp (length (g_nodes G)) wf_improved)) ∅;;
  match u with
  | Some x => match cc !! x with Some c => Ok (CCValue c) | None => Err KeyError end
  | None => Ok (CCDict cc)
  end.

(* ================================================================= *)
(** ** incremental_closeness_centrality (lines 137-265) *)

Definition stale_msg : string :=
  "Previous closeness centrality list does not correspond to given        graph.".

(** Lines 209-211: the previous result does not fit the graph. *)
Definition prev_cc_mismatch (G : graph) (prev_cc : gmap node Q) : bool :=
  let shared_items : gset node := dom prev_cc ∩ list_to_set (g_nodes G) in
  let count_shared := size shared_items in
  negb (Nat.eqb (size prev_cc) count_shared) ||
  negb (Nat.eqb (length (g_nodes G)) count_shared).

(** Lines 223-234: apply the change to the aliased graph and measure the
    distances from both endpoints (before an insertion, after a removal). *)
Definition apply_and_measure (u v : node) (insertion : bool)
    : M (list (node * nat) * list (node * nat)) :=
  if insertion then
    G <- mget;;
    du <- mlift (single_source_shortest_path_length G u);;
    dv <- mlift (single_source_shortest_path_length G v);;
    _ <- add_edge_m u v;;
    mret (du, dv)
  else
    _ <- remove_edge_m u v;;
    G_prime <- mget;;
    du <- mlift (single_source_shortest_path_length G_prime u);;
    dv <- mlift (single_source_shortest_path_length G_prime v);;
    mret (du, dv).

(** Lines 242-245: the node's value may be copied from [prev_cc]. *)
Definition keep_node (du dv : list (node * nat)) (n : node) : bool :=
  match dict_get du n, dict_get dv n with
  | Some a, Some b => Z.leb (Z.abs (Z.of_nat a - Z.of_nat b)) 1
  | _, _ => false
  end.

(** Lines 241-257: the value of node [n] in the changed graph. *)
Definition incremental_node (G_prime : graph) (prev_cc : gmap node Q)
    (du dv : list (node * nat)) (normalized : bool) (n : node) : result Q :=
  if keep_node du dv n then
    match prev_cc !! n with Some c => Ok c | None => Err KeyError end
  else
    sp <-r unweighted_path_length G_prime n;;
    Ok (node_closeness sp (length (g_nodes G_prime)) normalized).

Definition incremental_closeness_centrality (edge : node * node)
    (prev_cc : option (gmap node Q)) (insertion normalized : bool) : M cc_out :=
  G <- mget;;
  if g_directed G then mraise NetworkXNotImplemented else
  _ <- match prev_cc with
       | Some p => if prev_cc_mismatch G p
                   then mraise (NetworkXError stale_msg) else mret tt
       | None => mret tt
       end;;
  let u := edge.1 in
  let v := edge.2 in
  d <- apply_and_measure u v insertion;;
  match prev_cc with
  | None =>
      G_prime <- mget;;
      mlift (closeness_centrality G_prime None None true)
  | Some p =>
      G_prime <- mget;;
      cc <- mlift (dict_loop (g_nodes G_prime)
                     (incremental_node G_prime p d.1 d.2 normalized) ∅);;
      _ <- (if insertion then remove_edge_m u v else add_edge_m u v);;
      mret (CCDict cc)
  end.

(** The graph with the change [edge] applied, as the incremental function
    applies it. *)
Definition apply_change (G : graph) (edge : node * node) (insertion : bool)
    : result graph :=
  if insertion then add_edge G edge.1 edge.2 else remove_edge G edge.1 edge.2.

(* ================================================================= *)
(** ** Sample graphs *)

Definition simple_edge (p : node * node) : edge := mk_edge p.1 p.2 [].

Definition ugraph (ns : list node) (es : list (node * node)) : graph :=
  mk_graph false ns (map simple_edge es).

Definition path5 : graph := ugraph [1; 2; 3; 4; 5] [(1, 2); (2, 3); (3, 4); (4, 5)].
Definition path3 : graph := ugraph [1; 2; 3] [(1, 2); (2, 3)].

Definition dgraph (ns : list node) (es : list (node * node)) : graph :=
  mk_graph true ns (map simple_edge es).

(** Two nodes joined by an edge of distance attribute 1/2. *)
Definition half_edge : graph :=
  mk_graph false [1; 2] [mk_edge 1 2 [("weight", 1 # 2)]].

(** The previous result with the right keys but made-up values. *)
Definition zeros3 : gmap node Q := <[1 := 0%Q]> (<[2 := 0%Q]> (<[3 := 0%Q]> ∅)).

(* ================================================================= *)
(** ** Basic facts *)

Lemma memb_spec (x : node) (l : list node) : memb x l = true <-> x ∈ l.
Proof.
  unfold memb. rewrite existsb_exists. split.
  - intros [y [Hy Heq]]. apply Nat.eqb_eq in Heq. subst. by apply list_elem_of_In.
  - intros H. exists x. split; [by apply list_elem_of_In | apply Nat.eqb_refl].
Qed.

Lemma add_edge_nodes G u v G' : add_edge G u v = Ok G' -> g_nodes G' = g_nodes G.
Proof. unfold add_edge. destruct (has_edge G u v); intros H; inversion H; done. Qed.

Lemma remove_edge_nodes G u v G' : remove_edge G u v = Ok G' -> g_nodes G' = g_nodes G.
Proof. unfold remove_edge. destruct (has_edge G u v); intros H; inversion H; done. Qed.

Lemma add_edge_directed G u v G' : add_edge G u v = Ok G' -> g_directed G' = g_directed G.
Proof. unfold add_edge. destruct (has_edge G u v); intros H; inversion H; done. Qed.

Lemma remove_edge_directed G u v G' :
  remove_edge G u v = Ok G' -> g_directed G' = g_directed G.
Proof. unfold remove_edge. destruct (has_edge G u v); intros H; inversion H; done. Qed.

Lemma apply_change_nodes G e ins G' :
  apply_change G e ins = Ok G' -> g_nodes G' = g_nodes G.
Proof.
  unfold apply_change. destruct ins; [apply add_edge_nodes | apply remove_edge_nodes].
Qed.

(** The distance map the unweighted oracle returns for a node source. *)
Definition sssp_map (G : graph) (s : node) : list (node * nat) :=
  omap (fun w => (fun d => (w, d)) <$> level_of G s w) (g_nodes G).

Lemma sssp_node G s :
  s ∈ g_nodes G -> single_source_shortest_path_length G s = Ok (sssp_map G s).
Proof.
  intros Hs. unfold single_source_shortest_path_length.
  by rewrite (proj2 (memb_spec s _) Hs).
Qed.

(** Lines 223-234 on endpoints that are nodes: the change is applied as
    [apply_change] says; the distances come from the graph before an
    insertion and after a removal. *)
Lemma apply_and_measure_spec u v ins G :
  u ∈ g_nodes G -> v ∈ g_nodes G ->
  apply_and_measure u v ins G =
    match apply_change G (u, v) ins with
    | Ok G' => (Ok (sssp_map (if ins then G else G') u,
                    sssp_map (if ins then G else G') v), G')
    | Err e => (Err e, G)
    end.
Proof.
  intros Hu Hv. unfold apply_and_measure, apply_change; simpl.
  destruct ins; unfold mbind, mget, mlift, mret; simpl.
  - rewrite (sssp_node G u Hu), (sssp_node G v Hv).
    unfold add_edge_m. by destruct (add_edge G u v).
  - unfold remove_edge_m. destruct (remove_edge G u v) as [G'|e] eqn:Hr; [|done].
    pose proof (remove_edge_nodes _ _ _ _ Hr) as Hn.
    rewrite (sssp_node G' u), (sssp_node G' v); [done | |]; by rewrite Hn.
Qed.

(* ================================================================= *)
(** ** Adjacency *)

(** Edge [e] yields the arc [x -> y] in [G]. *)
Definition arc_of (G : graph) (e : edge) (x y : node) : Prop :=
  (e_u e = x /\ e_v e = y) \/ (g_directed G = false /\ e_v e = x /\ e_u e = y).

Lemma adjb_spec G x y :
  adjb G x y = true <-> exists e, e ∈ g_edges G /\ arc_of G e x y.
Proof.
  unfold adjb, arcs, arc_of. rewrite existsb_exists. split.
  - intros [[[a b] c] [Hin Hab]]. apply andb_true_iff in Hab as [Ha Hb].
    apply Nat.eqb_eq in Ha, Hb. simpl in Ha, Hb. subst.
    apply in_flat_map in Hin as [e [He Hin]]. exists e.
    split; [by apply list_elem_of_In|].
    destruct (g_directed G) eqn:Hd; simpl in Hin.
    + destruct Hin as [Hin|[]]. inversion Hin; subst. by left.
    + destruct Hin as [Hin|[Hin|[]]]; inversion Hin; subst; [left | right]; done.
  - intros [e [He Harc]]. apply list_elem_of_In in He.
    destruct Harc as [[Hx Hy]|[Hd [Hx Hy]]]; subst.
    + exists (e_u e, e_v e, e_attrs e). split.
      * apply in_flat_map. exists e. split; [done | by left].
      * simpl. by rewrite !Nat.eqb_refl.
    + exists (e_v e, e_u e, e_attrs e). split.
      * apply in_flat_map. exists e. split; [done|]. rewrite Hd. right. by left.
      * simpl. by rewrite !Nat.eqb_refl.
Qed.

Lemma adjb_nodes G x y :
  graph_wf G -> adjb G x y = true -> x ∈ g_nodes G /\ y ∈ g_nodes G.
Proof.
  intros [_ Hwf] Hadj. apply adjb_spec in Hadj as [e [He Harc]].
  rewrite Forall_forall in Hwf. destruct (Hwf e He) as [Hu Hv].
  destruct Harc as [[<- <-]|[_ [<- <-]]]; done.
Qed.

Lemma adjb_sym G x y : g_directed G = false -> adjb G x y = adjb G y x.
Proof.
  intros Hd. apply Bool.eq_iff_eq_true. rewrite !adjb_spec.
  unfold arc_of. rewrite Hd.
  split; intros [e [He Harc]]; exists e; split; [done| |done|]; naive_solver.
Qed.

(** Pair [(x, y)] is the edge [u-v] of [G] (either way when undirected). *)
Definition pair_match (G : graph) (u v x y : node) : bool :=
  (Nat.eqb x u && Nat.eqb y v) ||
  (negb (g_directed G) && Nat.eqb x v && Nat.eqb y u).

Lemma adjb_add_edge G u v G' x y :
  add_edge G u v = Ok G' -> adjb G' x y = adjb G x y || pair_match G u v x y.
Proof.
  unfold add_edge. destruct (has_edge G u v); intros H; inversion H; subst; clear H.
  apply Bool.eq_iff_eq_true. rewrite orb_true_iff, !adjb_spec. unfold pair_match, arc_of; simpl.
  rewrite !orb_true_iff, !andb_true_iff, negb_true_iff, !Nat.eqb_eq.
  split.
  - intros [e [He Harc]]. apply elem_of_app in He as [He|He].
    + left. by exists e.
    + apply list_elem_of_singleton in He. subst e. simpl in Harc. right. naive_solver.
  - intros [[e [He Harc]]|Hp].
    + exists e. split; [apply elem_of_app; by left | done].
    + exists (mk_edge u v []). split; [apply elem_of_app; right; by left|].
      simpl. naive_solver.
Qed.

Lemma pair_match_spec G u v x y :
  pair_match G u v x y = true <->
  (x = u /\ y = v) \/ (g_directed G = false /\ x = v /\ y = u).
Proof.
  unfold pair_match. rewrite orb_true_iff, !andb_true_iff, negb_true_iff, !Nat.eqb_eq.
  naive_solver.
Qed.

Lemma same_edge_spec G u v e :
  same_edge G u v e = true <->
  (e_u e = u /\ e_v e = v) \/ (g_directed G = false /\ e_u e = v /\ e_v e = u).
Proof.
  unfold same_edge. rewrite orb_true_iff, !andb_true_iff, negb_true_iff, !Nat.eqb_eq.
  naive_solver.
Qed.

Lemma filter_same_edge G u v (l : list edge) e :
  e ∈ filter (fun e => negb (same_edge G u v e)) l <->
  ~ ((e_u e = u /\ e_v e = v) \/ (g_directed G = false /\ e_u e = v /\ e_v e = u))
  /\ e ∈ l.
Proof.
  rewrite list_elem_of_filter, Is_true_true, negb_true_iff, <- not_true_iff_false.
  by rewrite same_edge_spec.
Qed.

Lemma adjb_remove_edge G u v G' x y :
  remove_edge G u v = Ok G' ->
  adjb G' x y = adjb G x y && negb (pair_match G u v x y).
Proof.
  unfold remove_edge. destruct (has_edge G u v); intros H; inversion H; subst; clear H.
  apply Bool.eq_iff_eq_true. rewrite andb_true_iff, !adjb_spec, negb_true_iff.
  rewrite <- not_true_iff_false, pair_match_spec. unfold arc_of; simpl.
  setoid_rewrite filter_same_edge.
  split.
  - intros [e [[Hs He] Harc]]. split; [exists e; naive_solver | naive_solver].
  - intros [[e [He Harc]] Hp]. exists e. naive_solver.
Qed.

(* ================================================================= *)
(** ** Walks and hop levels *)

(** [walk G s k w]: [w] is at most [k] hops away from [s]. *)
Inductive walk (G : graph) (s : node) : nat -> node -> Prop :=
  | walk_here : walk G s 0 s
  | walk_stay k w : walk G s k w -> walk G s (S k) w
  | walk_step k x w : walk G s k x -> adjb G x w = true -> walk G s (S k) w.

Create HintDb walks.
#[local] Hint Constructors walk : walks.

Lemma walk_nodes G s k w :
  graph_wf G -> s ∈ g_nodes G -> walk G s k w -> w ∈ g_nodes G.
Proof.
  intros Hwf Hs Hw. induction Hw; [done | done |].
  by apply (adjb_nodes G x w Hwf).
Qed.

Lemma walk_mono G s k k' w : walk G s k w -> k <= k' -> walk G s k' w.
Proof.
  intros Hw Hle. induction Hle; eauto with walks.
Qed.

Lemma walk_front G s x k w :
  adjb G s x = true -> walk G x k w -> walk G s (S k) w.
Proof.
  intros Hsx Hw. induction Hw; eauto with walks.
Qed.

Lemma walk_sym G s k w :
  g_directed G = false -> walk G s k w -> walk G w k s.
Proof.
  intros Hd Hw. induction Hw as [|k w Hw IH|k x w Hw IH Hxw]; [constructor | by constructor |].
  apply (walk_front G w x); [by rewrite adjb_sym | done].
Qed.

Lemma memb_within_S G s k w :
  memb w (within G s (S k)) = true <->
  w ∈ g_nodes G /\
  (memb w (within G s k) = true \/
   exists x, memb x (within G s k) = true /\ adjb G x w = true).
Proof.
  cbn [within]. rewrite memb_spec, list_elem_of_filter. cbv beta.
  rewrite Is_true_true, orb_true_iff, existsb_exists.
  split.
  - intros [[Hw|[x [Hx Hxw]]] Hn]; split; [done | by left | done |].
    right. exists x. split; [apply memb_spec, list_elem_of_In | ]; done.
  - intros [Hn [Hw|[x [Hx Hxw]]]]; split; [by left | done | | done].
    right. exists x. split; [apply list_elem_of_In, memb_spec |]; done.
Qed.

Lemma within_walk G s k w :
  graph_wf G -> s ∈ g_nodes G ->
  memb w (within G s k) = true <-> walk G s k w.
Proof.
  intros Hwf Hs. revert w. induction k as [|k IH]; intros w.
  - cbn [within]. rewrite memb_spec, list_elem_of_singleton. split.
    + intros ->. constructor.
    + intros Hw. by inversion Hw.
  - rewrite memb_within_S. split.
    + intros [_ [Hw|[x [Hx Hxw]]]].
      * apply walk_stay. by apply IH.
      * apply (walk_step G s k x w); [by apply IH | done].
    + intros Hw. split; [by apply (walk_nodes G s (S k))|].
      inversion Hw as [|? ? Hw'|? x ? Hw' Hxw]; subst.
      * left. by apply IH.
      * right. exists x. split; [by apply IH | done].
Qed.

Lemma find_seq_some (f : nat -> bool) a len k :
  find f (seq a len) = Some k ->
  f k = true /\ a <= k < a + len /\ forall j, a <= j < k -> f j = false.
Proof.
  revert a. induction len as [|len IH]; intros a; simpl; [discriminate|].
  destruct (f a) eqn:Hfa.
  - intros H. inversion H; subst. split; [done|]. split; [lia|]. intros j Hj. lia.
  - intros H. destruct (IH (S a) H) as [Hk [Hr Hlt]].
    split; [done|]. split; [lia|]. intros j Hj.
    destruct (decide (j = a)) as [->|Hne]; [done|]. apply Hlt. lia.
Qed.

Lemma find_seq_none (f : nat -> bool) a len j :
  find f (seq a len) = None -> a <= j < a + len -> f j = false.
Proof.
  intros H Hj. apply (find_none f (seq a len) H). apply in_seq. lia.
Qed.

Lemma find_ext {A} (f g : A -> bool) (l : list A) :
  (forall x, f x = g x) -> find f l = find g l.
Proof. intros Hfg. induction l as [|x l IH]; simpl; [done|]. by rewrite Hfg, IH. Qed.

(** [level_of] is the least number of hops. *)
Lemma level_of_spec G s w d :
  graph_wf G -> s ∈ g_nodes G ->
  level_of G s w = Some d <->
  d <= length (g_nodes G) /\ walk G s d w /\ forall j, j < d -> ~ walk G s j w.
Proof.
  intros Hwf Hs. unfold level_of, first_level. split.
  - intros H. apply find_seq_some in H as [Hd [Hr Hlt]].
    split; [lia|]. split; [by apply within_walk|].
    intros j Hj Hw. apply (within_walk G s j w Hwf Hs) in Hw.
    rewrite (Hlt j) in Hw; [discriminate | lia].
  - intros [Hle [Hw Hmin]].
    destruct (find _ (seq 0 (S (length (g_nodes G))))) as [d'|] eqn:Hf.
    + apply find_seq_some in Hf as [Hd' [Hr Hlt]].
      apply (within_walk G s d' w Hwf Hs) in Hd'.
      f_equal. destruct (Nat.lt_trichotomy d d') as [Hl|[Heq|Hl]]; [|done|].
      * exfalso. apply within_walk in Hw; [|done|done]. rewrite Hlt in Hw; [discriminate | lia].
      * exfalso. by apply (Hmin d').
    + exfalso. apply (within_walk G s d w Hwf Hs) in Hw.
      rewrite (find_seq_none _ 0 (S (length (g_nodes G))) d Hf) in Hw; [discriminate | lia].
Qed.

Lemma level_of_zero G s w : level_of G s w = Some 0 -> w = s.
Proof.
  unfold level_of, first_level. intros H. apply find_some in H as [_ H].
  cbn [within] in H. apply memb_spec, list_elem_of_singleton in H. done.
Qed.

Lemma dict_get_sssp_map G s n a :
  dict_get (sssp_map G s) n = Some a -> level_of G s n = Some a.
Proof.
  unfold sssp_map, dict_get. induction (g_nodes G) as [|w ns IH]; simpl; [discriminate|].
  destruct (level_of G s w) as [d|] eqn:Hl; simpl; [|intros Hx; by apply IH].
  destruct (Nat.eqb w n) eqn:Hwn; [|intros Hx; by apply IH].
  apply Nat.eqb_eq in Hwn. subst. simpl. intros H. injection H as <-. exact Hl.
Qed.

Lemma omap_ext {A B} (f g : A -> option B) (l : list A) :
  (forall x, f x = g x) -> omap f l = omap g l.
Proof. intros Hfg. induction l as [|x l IH]; [done|]. simpl. rewrite Hfg. destruct (g x); [f_equal|]; exact IH. Qed.

(** The work-filtering argument: [H] is [H'] plus the edge [u-v], and in
    [H'] the node [n] is as far from [v] as from [u], up to one hop.  Then
    [n] has the same hop levels in both graphs. *)
Section ExtraEdge.
Variables (H H' : graph) (u v n : node).
Hypothesis Hadj : forall x y,
  adjb H x y = true <-> adjb H' x y = true \/ pair_match H' u v x y = true.
Hypothesis Huv : forall k, walk H' n k u -> walk H' n (S k) v.
Hypothesis Hvu : forall k, walk H' n k v -> walk H' n (S k) u.

Lemma walk_extra_edge k w : walk H n k w <-> walk H' n k w.
Proof.
  split; intros Hw.
  - induction Hw as [|k w Hw IH|k x w Hw IH Hxw]; [constructor | by constructor |].
    apply Hadj in Hxw as [Hxw|Hp]; [by apply (walk_step H' n k x w)|].
    apply pair_match_spec in Hp as [[-> ->]|[_ [-> ->]]]; auto.
  - induction Hw as [|k w Hw IH|k x w Hw IH Hxw]; [constructor | by constructor |].
    apply (walk_step H n k x w); [done|]. apply Hadj. by left.
Qed.

Lemma sssp_map_extra_edge :
  graph_wf H -> graph_wf H' -> g_nodes H = g_nodes H' -> n ∈ g_nodes H ->
  sssp_map H n = sssp_map H' n.
Proof.
  intros Hwf Hwf' Hns Hn. unfold sssp_map. rewrite Hns.
  apply omap_ext. intros w. f_equal. unfold level_of, first_level.
  rewrite Hns. apply find_ext. intros k. apply Bool.eq_iff_eq_true.
  rewrite (within_walk H n k w Hwf Hn), (within_walk H' n k w Hwf'); [|by rewrite <- Hns].
  apply walk_extra_edge.
Qed.
End ExtraEdge.

(** Lines 242-245 in hop terms: when the test keeps [n], one more hop
    always takes a walk from [n] to [u] on to [v], and back. *)
Lemma keep_node_walks G u v n :
  graph_wf G -> g_directed G = false -> u ∈ g_nodes G -> v ∈ g_nodes G ->
  keep_node (sssp_map G u) (sssp_map G v) n = true ->
  (forall k, walk G n k u -> walk G n (S k) v) /\
  (forall k, walk G n k v -> walk G n (S k) u).
Proof.
  intros Hwf Hd Hu Hv. unfold keep_node.
  destruct (dict_get (sssp_map G u) n) as [a|] eqn:Ha; [|discriminate].
  destruct (dict_get (sssp_map G v) n) as [b|] eqn:Hb; [|discriminate].
  intros Hab. apply Z.leb_le in Hab.
  apply dict_get_sssp_map, (level_of_spec G u n a Hwf Hu) in Ha as [Hale [Hwa Hmina]].
  apply dict_get_sssp_map, (level_of_spec G v n b Hwf Hv) in Hb as [Hble [Hwb Hminb]].
  apply (walk_sym G) in Hwa, Hwb; [|done|done].
  split; intros k Hk.
  - assert (a <= k).
    { destruct (Nat.le_gt_cases a k) as [|Hlt]; [done|].
      exfalso. apply (Hmina k Hlt). by apply walk_sym. }
    apply (walk_mono G n b); [done | lia].
  - assert (b <= k).
    { destruct (Nat.le_gt_cases b k) as [|Hlt]; [done|].
      exfalso. apply (Hminb k Hlt). by apply walk_sym. }
    apply (walk_mono G n a); [done | lia].
Qed.

(* ================================================================= *)
(** ** The result-building loop *)

Lemma dict_loop_ok_elem ns f acc m x :
  dict_loop ns f acc = Ok m -> x ∈ ns -> exists c, f x = Ok c.
Proof.
  revert acc. induction ns as [|y ns IH]; intros acc; simpl.
  - intros _ Hx. by apply elem_of_nil in Hx.
  - destruct (f y) as [c|e] eqn:Hfy; simpl; [|discriminate].
    intros Hl Hx. apply elem_of_cons in Hx as [->|Hx]; [by exists c|].
    by apply (IH (<[y:=c]> acc)).
Qed.

Lemma dict_loop_lookup_notin ns f acc m x :
  dict_loop ns f acc = Ok m -> x ∉ ns -> m !! x = acc !! x.
Proof.
  revert acc. induction ns as [|y ns IH]; intros acc; simpl.
  - intros H _. by inversion H.
  - destruct (f y) as [c|e] eqn:Hfy; simpl; [|discriminate].
    intros Hl Hx. apply not_elem_of_cons in Hx as [Hxy Hx].
    rewrite (IH _ Hl Hx). by rewrite lookup_insert_ne.
Qed.

Lemma dict_loop_lookup ns f acc m x c :
  dict_loop ns f acc = Ok m -> x ∈ ns -> f x = Ok c -> m !! x = Some c.
Proof.
  revert acc. induction ns as [|y ns IH]; intros acc; simpl.
  - intros _ Hx. by apply elem_of_nil in Hx.
  - destruct (f y) as [c'|e] eqn:Hfy; simpl; [|discriminate].
    intros Hl Hx Hfx.
    destruct (decide (x ∈ ns)) as [Hin|Hnin]; [by apply (IH _ Hl Hin)|].
    apply elem_of_cons in Hx as [->|Hx]; [|done].
    rewrite (dict_loop_lookup_notin _ _ _ _ _ Hl Hnin).
    rewrite lookup_insert_eq. congruence.
Qed.

Lemma dict_loop_total ns f acc :
  (forall x, x ∈ ns -> exists c, f x = Ok c) ->
  exists m, dict_loop ns f acc = Ok m.
Proof.
  revert acc. induction ns as [|y ns IH]; intros acc Htot; simpl; [by eexists|].
  destruct (Htot y) as [c Hc]; [apply elem_of_cons; by left|].
  rewrite Hc. simpl. apply IH. intros x Hx. apply Htot. apply elem_of_cons. by right.
Qed.

Lemma dict_loop_ext ns f g acc :
  (forall x, x ∈ ns -> f x = g x) -> dict_loop ns f acc = dict_loop ns g acc.
Proof.
  revert acc. induction ns as [|y ns IH]; intros acc Hfg; simpl; [done|].
  rewrite Hfg; [|apply elem_of_cons; by left].
  destruct (g y); simpl; [|done]. apply IH.
  intros x Hx. apply Hfg, elem_of_cons. by right.
Qed.

Lemma dict_loop_dom ns f acc m :
  dict_loop ns f acc = Ok m -> dom m = dom acc ∪ (list_to_set ns : gset node).
Proof.
  revert acc. induction ns as [|y ns IH]; intros acc; simpl.
  - intros H. inversion H. set_solver.
  - destruct (f y) as [c|e]; simpl; [|discriminate].
    intros Hl. rewrite (IH _ Hl), dom_insert_L. set_solver.
Qed.

(* ================================================================= *)
(** ** The previous-result check *)

Lemma prev_cc_mismatch_false G (p : gmap node Q) :
  NoDup (g_nodes G) ->
  prev_cc_mismatch G p = false <-> (forall k, is_Some (p !! k) <-> k ∈ g_nodes G).
Proof.
  intros Hnd. unfold prev_cc_mismatch.
  rewrite orb_false_iff, !negb_false_iff, !Nat.eqb_eq.
  pose proof (size_list_to_set (C := gset node) _ Hnd) as Hsz.
  split.
  - intros [H1 H2].
    assert (Hd : dom p ∩ list_to_set (g_nodes G) = dom p).
    { apply set_subseteq_size_eq; [set_solver|]. rewrite size_dom. lia. }
    assert (Hs : dom p ∩ list_to_set (g_nodes G) = list_to_set (g_nodes G)).
    { apply set_subseteq_size_eq; [set_solver|]. lia. }
    intros k. rewrite <- elem_of_dom, <- Hd, Hs. apply elem_of_list_to_set.
  - intros Hk.
    assert (Hd : dom p = list_to_set (g_nodes G)).
    { apply set_eq. intros k. rewrite elem_of_dom, elem_of_list_to_set. apply Hk. }
    rewrite Hd, intersection_idemp_L, <- size_dom, Hd. lia.
Qed.

(* ================================================================= *)
(** ** Edge changes *)

Lemma pair_match_refl G u v : pair_match G u v u v = true.
Proof. apply pair_match_spec. by left. Qed.

Lemma add_edge_has G u v G' : add_edge G u v = Ok G' -> has_edge G' u v = true.
Proof.
  intros H. unfold has_edge. rewrite (adjb_add_edge _ _ _ _ _ _ H), pair_match_refl.
  apply orb_true_r.
Qed.

Lemma remove_edge_has G u v G' : remove_edge G u v = Ok G' -> has_edge G' u v = false.
Proof.
  intros H. unfold has_edge. rewrite (adjb_remove_edge _ _ _ _ _ _ H), pair_match_refl.
  apply andb_false_r.
Qed.

Lemma add_edge_ok_iff G u v : (exists G', add_edge G u v = Ok G') <-> has_edge G u v = false.
Proof.
  unfold add_edge. destruct (has_edge G u v); split; intros H;
    [destruct H; discriminate | discriminate | done | by eexists].
Qed.

Lemma remove_edge_ok_iff G u v :
  (exists G', remove_edge G u v = Ok G') <-> has_edge G u v = true.
Proof.
  unfold remove_edge. destruct (has_edge G u v); split; intros H;
    [done | by eexists | destruct H; discriminate | discriminate].
Qed.

Lemma add_edge_wf G u v G' :
  graph_wf G -> u ∈ g_nodes G -> v ∈ g_nodes G -> add_edge G u v = Ok G' -> graph_wf G'.
Proof.
  intros [Hnd Hes] Hu Hv. unfold add_edge. destruct (has_edge G u v); intros H;
    inversion H; subst; clear H.
  split; [done|]. simpl. apply Forall_app. split; [done|]. by constructor.
Qed.

Lemma remove_edge_wf G u v G' : graph_wf G -> remove_edge G u v = Ok G' -> graph_wf G'.
Proof.
  intros [Hnd Hes]. unfold remove_edge. destruct (has_edge G u v); intros H;
    inversion H; subst; clear H.
  split; [done|]. simpl. rewrite Forall_forall in Hes |- *.
  intros e He. apply list_elem_of_filter in He as [_ He]. by apply Hes.
Qed.

Lemma apply_change_wf G u v ins G' :
  graph_wf G -> u ∈ g_nodes G -> v ∈ g_nodes G ->
  apply_change G (u, v) ins = Ok G' -> graph_wf G'.
Proof.
  unfold apply_change. destruct ins; simpl; intros Hwf Hu Hv;
    [apply add_edge_wf | apply remove_edge_wf]; done.
Qed.

Lemma apply_change_directed G e ins G' :
  apply_change G e ins = Ok G' -> g_directed G' = g_directed G.
Proof.
  unfold apply_change. destruct ins; [apply add_edge_directed | apply remove_edge_directed].
Qed.

(** Lines 223-234: what a successful measurement did. *)
Lemma apply_and_measure_ok u v ins G d G' :
  apply_and_measure u v ins G = (Ok d, G') ->
  u ∈ g_nodes G /\ v ∈ g_nodes G /\ apply_change G (u, v) ins = Ok G' /\
  d = (sssp_map (if ins then G else G') u, sssp_map (if ins then G else G') v).
Proof.
  intros H.
  assert (Huv : u ∈ g_nodes G /\ v ∈ g_nodes G).
  { revert H. unfold apply_and_measure, mbind, mget, mlift, mret.
    unfold single_source_shortest_path_length.
    destruct ins.
    - destruct (memb u (g_nodes G)) eqn:Hu; [|discriminate].
      destruct (memb v (g_nodes G)) eqn:Hv; [|discriminate].
      intros _. by rewrite <- !memb_spec.
    - unfold remove_edge_m. destruct (remove_edge G u v) as [G1|e] eqn:Hr; [|discriminate].
      rewrite (remove_edge_nodes _ _ _ _ Hr).
      destruct (memb u (g_nodes G)) eqn:Hu; [|discriminate].
      destruct (memb v (g_nodes G)) eqn:Hv; [|discriminate].
      intros _. by rewrite <- !memb_spec. }
  destruct Huv as [Hu Hv]. rewrite (apply_and_measure_spec u v ins G Hu Hv) in H.
  destruct (apply_change G (u, v) ins) as [G1|e]; [|discriminate].
  inversion H; subst. done.
Qed.

(** On a well-formed graph a failed measurement left the graph alone. *)
Lemma apply_and_measure_err u v ins G e G1 :
  graph_wf G -> apply_and_measure u v ins G = (Err e, G1) -> G1 = G.
Proof.
  intros Hwf H.
  destruct (decide (u ∈ g_nodes G /\ v ∈ g_nodes G)) as [[Hu Hv]|Hn].
  - rewrite (apply_and_measure_spec u v ins G Hu Hv) in H.
    destruct (apply_change G (u, v) ins); inversion H; done.
  - revert H. unfold apply_and_measure, mbind, mget, mlift, mret.
    unfold single_source_shortest_path_length.
    destruct ins.
    + destruct (memb u (g_nodes G)) eqn:Hu; [|intros H; by inversion H].
      destruct (memb v (g_nodes G)) eqn:Hv; [|intros H; by inversion H].
      exfalso. apply Hn. by rewrite <- !memb_spec.
    + unfold remove_edge_m. destruct (remove_edge G u v) as [G2|e'] eqn:Hr;
        [|intros H; by inversion H].
      exfalso. apply Hn. apply adjb_nodes; [done|].
      apply (remove_edge_ok_iff G u v). by eexists.
Qed.

Lemma adjb_pair_absent G u v x y :
  has_edge G u v = false -> pair_match G u v x y = true -> adjb G x y = false.
Proof.
  unfold has_edge. intros Hn Hp. apply pair_match_spec in Hp as [[-> ->]|[Hd [-> ->]]]; [done|].
  by rewrite adjb_sym.
Qed.

Lemma adjb_pair_present G u v x y :
  has_edge G u v = true -> pair_match G u v x y = true -> adjb G x y = true.
Proof.
  unfold has_edge. intros Hn Hp. apply pair_match_spec in Hp as [[-> ->]|[Hd [-> ->]]]; [done|].
  by rewrite adjb_sym.
Qed.

Lemma pair_match_directed G G' u v x y :
  g_directed G' = g_directed G -> pair_match G' u v x y = pair_match G u v x y.
Proof. intros Hd. unfold pair_match. by rewrite Hd. Qed.

(** Lines 259-263 after a successful change: the revert succeeds and the
    edge set is the one before the change. *)
Lemma revert_change G u v ins G' :
  apply_change G (u, v) ins = Ok G' ->
  exists G'', (if ins then remove_edge_m u v else add_edge_m u v) G' = (Ok tt, G'') /\
              forall x y, has_edge G'' x y = has_edge G x y.
Proof.
  unfold apply_change; simpl. destruct ins; intros Hc.
  - destruct (proj2 (remove_edge_ok_iff G' u v) (add_edge_has _ _ _ _ Hc)) as [G'' Hr].
    exists G''. unfold remove_edge_m. rewrite Hr. split; [done|].
    intros x y. unfold has_edge.
    rewrite (adjb_remove_edge _ _ _ _ _ _ Hr), (adjb_add_edge _ _ _ _ _ _ Hc).
    rewrite (pair_match_directed G G' _ _ _ _ (add_edge_directed _ _ _ _ Hc)).
    assert (Habs : has_edge G u v = false) by (apply add_edge_ok_iff; by eexists).
    destruct (pair_match G u v x y) eqn:Hp.
    + rewrite (adjb_pair_absent G u v x y Habs Hp). done.
    + by rewrite orb_false_r, andb_true_r.
  - destruct (proj2 (add_edge_ok_iff G' u v) (remove_edge_has _ _ _ _ Hc)) as [G'' Ha].
    exists G''. unfold add_edge_m. rewrite Ha. split; [done|].
    intros x y. unfold has_edge.
    rewrite (adjb_add_edge _ _ _ _ _ _ Ha), (adjb_remove_edge _ _ _ _ _ _ Hc).
    rewrite (pair_match_directed G G' _ _ _ _ (remove_edge_directed _ _ _ _ Hc)).
    assert (Hpre : has_edge G u v = true) by (apply remove_edge_ok_iff; by eexists).
    destruct (pair_match G u v x y) eqn:Hp.
    + rewrite (adjb_pair_present G u v x y Hpre Hp). done.
    + by rewrite andb_true_r, orb_false_r.
Qed.

(* ================================================================= *)
(** ** The two paths of the incremental function *)

(** The incremental path (a previous result that fits the graph). *)
Lemma incremental_some_unfold G u v p ins norm :
  g_directed G = false -> prev_cc_mismatch G p = false ->
  incremental_closeness_centrality (u, v) (Some p) ins norm G =
  match apply_and_measure u v ins G with
  | (Ok d, G') =>
      match dict_loop (g_nodes G') (incremental_node G' p d.1 d.2 norm) ∅ with
      | Ok cc =>
          match (if ins then remove_edge_m u v else add_edge_m u v) G' with
          | (Ok _, G'') => (Ok (CCDict cc), G'')
          | (Err e, G'') => (Err e, G'')
          end
      | Err e => (Err e, G')
      end
  | (Err e, G1) => (Err e, G1)
  end.
Proof.
  intros Hd Hm. unfold incremental_closeness_centrality, mbind, mget, mlift, mret, mraise.
  rewrite Hd, Hm. simpl.
  destruct (apply_and_measure u v ins G) as [[d|e] G']; [|done].
  destruct (dict_loop _ _ _); [|done].
  by destruct ((if ins then remove_edge_m u v else add_edge_m u v) G') as [[?|?] ?].
Qed.

(** The fast path (no previous result). *)
Lemma incremental_none_unfold G u v ins norm :
  g_directed G = false -> u ∈ g_nodes G -> v ∈ g_nodes G ->
  incremental_closeness_centrality (u, v) None ins norm G =
  match apply_change G (u, v) ins with
  | Ok G' => (closeness_centrality G' None None true, G')
  | Err e => (Err e, G)
  end.
Proof.
  intros Hd Hu Hv. unfold incremental_closeness_centrality.
  unfold mbind at 1. unfold mget at 1. rewrite Hd. simpl.
  unfold mbind, mret. simpl. rewrite (apply_and_measure_spec u v ins G Hu Hv).
  by destruct (apply_change G (u, v) ins).
Qed.

(** Lines 241-257 never raise when the previous result fits the graph. *)
Lemma incremental_loop_ok G' p du dv norm :
  (forall k, is_Some (p !! k) <-> k ∈ g_nodes G') ->
  exists cc, dict_loop (g_nodes G') (incremental_node G' p du dv norm) ∅ = Ok cc.
Proof.
  intros Hk. apply dict_loop_total. intros x Hx. unfold incremental_node.
  destruct (keep_node du dv x).
  - destruct (proj2 (Hk x) Hx) as [c Hc]. rewrite Hc. by eexists.
  - unfold unweighted_path_length. rewrite (sssp_node G' x Hx). simpl. by eexists.
Qed.

(** [closeness_centrality] on an undirected graph, all nodes. *)
Lemma closeness_centrality_undirected G distance wf_improved :
  g_directed G = false ->
  closeness_centrality G None distance wf_improved =
  match dict_loop (g_nodes G) (fun n =>
          sp <-r path_length distance G n;;
          Ok (node_closeness sp (length (g_nodes G)) wf_improved)) ∅ with
  | Ok cc => Ok (CCDict cc)
  | Err e => Err e
  end.
Proof.
  intros Hd. unfold closeness_centrality. rewrite Hd. simpl.
  by destruct (dict_loop _ _ _).
Qed.

(** Filtering is exact: a node kept by lines 242-245 has the same distance
    map before and after the change. *)
Lemma keep_node_sssp_map G u v ins G' x :
  graph_wf G -> g_directed G = false -> u ∈ g_nodes G -> v ∈ g_nodes G ->
  apply_change G (u, v) ins = Ok G' -> x ∈ g_nodes G ->
  keep_node (sssp_map (if ins then G else G') u) (sssp_map (if ins then G else G') v) x = true ->
  sssp_map G' x = sssp_map G x.
Proof.
  intros Hwf Hd Hu Hv Hc Hx Hk.
  pose proof (apply_change_nodes _ _ _ _ Hc) as Hns.
  pose proof (apply_change_directed _ _ _ _ Hc) as Hd'. rewrite Hd in Hd'.
  pose proof (apply_change_wf _ _ _ _ _ Hwf Hu Hv Hc) as Hwf'.
  unfold apply_change in Hc; simpl in Hc. destruct ins.
  - destruct (keep_node_walks G u v x Hwf Hd Hu Hv Hk) as [Huv Hvu].
    apply (sssp_map_extra_edge G' G u v x); try done; [|by rewrite Hns].
    intros a b. by rewrite (adjb_add_edge _ _ _ _ _ _ Hc), orb_true_iff.
  - rewrite <- Hns in Hu, Hv.
    destruct (keep_node_walks G' u v x Hwf' Hd' Hu Hv Hk) as [Huv Hvu].
    symmetry. apply (sssp_map_extra_edge G G' u v x); try done.
    intros a b. rewrite (adjb_remove_edge _ _ _ _ _ _ Hc).
    rewrite (pair_match_directed G G' _ _ _ _ (remove_edge_directed _ _ _ _ Hc)).
    assert (Hpre : has_edge G u v = true) by (apply remove_edge_ok_iff; by eexists).
    destruct (pair_match G u v a b) eqn:Hp.
    + rewrite (adjb_pair_present G u v a b Hpre Hp). naive_solver.
    + rewrite andb_true_r. naive_solver.
Qed.

(** C1 (corrected).  When the previous result is the batch result for the
    graph before the change (same normalization flag), the incremental
    update on an undirected graph returns exactly what [closeness_centrality]
    computes from scratch on the changed graph, for insertion and deletion
    alike, whenever the change can be applied. *)
Theorem incremental_matches_batch G u v ins norm p G' :
  graph_wf G -> g_directed G = false -> u ∈ g_nodes G -> v ∈ g_nodes G ->
  closeness_centrality G None None norm = Ok (CCDict p) ->
  apply_change G (u, v) ins = Ok G' ->
  fst (incremental_closeness_centrality (u, v) (Some p) ins norm G) =
  closeness_centrality G' None None norm.
Proof.
  intros Hwf Hd Hu Hv Hp Hc.
  pose proof (apply_change_nodes _ _ _ _ Hc) as Hns.
  pose proof (apply_change_directed _ _ _ _ Hc) as Hd'. rewrite Hd in Hd'.
  rewrite closeness_centrality_undirected in Hp by done.
  destruct (dict_loop (g_nodes G) _ ∅) as [pm|e] eqn:Hloop; [|discriminate].
  injection Hp as <-.
  assert (Hkeys : forall k, is_Some (pm !! k) <-> k ∈ g_nodes G).
  { intros k. rewrite <- elem_of_dom, (dict_loop_dom _ _ _ _ Hloop), dom_empty_L.
    rewrite union_empty_l_L. apply elem_of_list_to_set. }
  rewrite incremental_some_unfold; [|done | by apply prev_cc_mismatch_false; [apply Hwf|]].
  rewrite (apply_and_measure_spec u v ins G Hu Hv), Hc. simpl.
  rewrite closeness_centrality_undirected by done.
  rewrite (dict_loop_ext (g_nodes G') _ (fun n =>
             sp <-r path_length None G' n;;
             Ok (node_closeness sp (length (g_nodes G')) norm))).
  2:{ intros x Hx. unfold incremental_node.
      destruct (keep_node _ _ x) eqn:Hk; [|reflexivity].
      rewrite Hns in Hx.
      destruct (dict_loop_ok_elem _ _ _ _ x Hloop Hx) as [c Hfc].
      rewrite (dict_loop_lookup _ _ _ _ x c Hloop Hx Hfc).
      revert Hfc. simpl. unfold unweighted_path_length.
      rewrite (sssp_node G x Hx), (sssp_node G' x); [|by rewrite Hns]. simpl.
      rewrite (keep_node_sssp_map G u v ins G' x Hwf Hd Hu Hv Hc Hx Hk), Hns.
      intros H. by rewrite H. }
  destruct (dict_loop_total (g_nodes G') (fun n =>
             sp <-r path_length None G' n;;
             Ok (node_closeness sp (length (g_nodes G')) norm)) ∅) as [cc Hcc].
  { intros x Hx. simpl. unfold unweighted_path_length. rewrite (sssp_node G' x Hx).
    simpl. by eexists. }
  rewrite Hcc.
  destruct (revert_change _ _ _ _ _ Hc) as [G'' [Hr _]]. by rewrite Hr.
Qed.

Lemma incremental_matches_batch_witness :
  closeness_centrality path5 None None true =
    Ok (CCDict (match closeness_centrality path5 None None true with
                | Ok (CCDict m) => m | _ => ∅ end)) /\
  fst (incremental_closeness_centrality (1, 5) (Some (match closeness_centrality path5 None None true with
                | Ok (CCDict m) => m | _ => ∅ end)) true true path5) =
  closeness_centrality (ugraph [1; 2; 3; 4; 5] [(1, 2); (2, 3); (3, 4); (4, 5); (1, 5)]) None None true.
Proof.
  split; [vm_compute; reflexivity|].
  apply (incremental_matches_batch path5 1 5 true true _ _).
  - split; [vm_compute; repeat constructor; set_solver | repeat constructor; set_solver].
  - reflexivity.
  - set_solver.
  - set_solver.
  - vm_compute; reflexivity.
  - vm_compute; reflexivity.
Defined.

(** C1: the claim as stated, for any previous map with the right keys, is
    refuted on the path 1-2-3 with the edge 1-3 inserted and a previous
    map of zeros: node 2 is kept from the previous map (value 0), while the
    triangle gives it centrality 1. *)
Lemma incremental_arbitrary_prev_counterexample :
  ~ (forall G u v ins norm (P : gmap node Q) G',
       g_directed G = false ->
       (forall k, is_Some (P !! k) <-> k ∈ g_nodes G) ->
       apply_change G (u, v) ins = Ok G' ->
       fst (incremental_closeness_centrality (u, v) (Some P) ins norm G) =
       closeness_centrality G' None None norm).
Proof.
  intros Hall.
  specialize (Hall path3 1 3 true true zeros3
                (ugraph [1; 2; 3] [(1, 2); (2, 3); (1, 3)]) eq_refl).
  assert (Hk : forall k, is_Some (zeros3 !! k) <-> k ∈ g_nodes path3).
  { intros k. unfold zeros3. rewrite !lookup_insert_is_Some', lookup_empty. simpl.
    rewrite !elem_of_cons, elem_of_nil. split; [intros [?|[?|[?|[]%is_Some_None]]]; auto|].
    intros [?|[?|[?|[]]]]; auto. }
  specialize (Hall Hk eq_refl). vm_compute in Hall. discriminate Hall.
Qed.

(** Line 137: the decorator refuses directed graphs before the body runs. *)
Lemma incremental_directed_refused G e prev ins norm :
  g_directed G = true ->
  incremental_closeness_centrality e prev ins norm G = (Err NetworkXNotImplemented, G).
Proof.
  intros Hd. unfold incremental_closeness_centrality, mbind, mget, mraise.
  by rewrite Hd.
Qed.

(** Lines 208-214: the check fails before anything else happens. *)
Lemma incremental_mismatch_refused G e p ins norm :
  g_directed G = false -> prev_cc_mismatch G p = true ->
  incremental_closeness_centrality e (Some p) ins norm G =
  (Err (NetworkXError stale_msg), G).
Proof.
  intros Hd Hm. unfold incremental_closeness_centrality, mbind, mget, mraise.
  by rewrite Hd, Hm.
Qed.

(** C2 (corrected).  With a previous result supplied, every call on a
    well-formed graph, whether it returns or raises, leaves the edge set as
    it was at entry; with no previous result, the applied change is kept:
    the graph at exit is the changed graph. *)
Theorem incremental_restores_edge_set G u v p ins norm :
  graph_wf G ->
  (forall r G_final,
     incremental_closeness_centrality (u, v) (Some p) ins norm G = (r, G_final) ->
     forall x y, has_edge G_final x y = has_edge G x y) /\
  (g_directed G = false -> u ∈ g_nodes G -> v ∈ g_nodes G ->
   forall G', apply_change G (u, v) ins = Ok G' ->
   snd (incremental_closeness_centrality (u, v) None ins norm G) = G').
Proof.
  intros Hwf. split.
  - intros r G_final Hcall x y.
    destruct (g_directed G) eqn:Hd.
    { rewrite incremental_directed_refused in Hcall by done. by inversion Hcall. }
    destruct (prev_cc_mismatch G p) eqn:Hm.
    { rewrite incremental_mismatch_refused in Hcall by done. by inversion Hcall. }
    rewrite incremental_some_unfold in Hcall by done.
    destruct (apply_and_measure u v ins G) as [[d|e] G1] eqn:Ham.
    + destruct (apply_and_measure_ok _ _ _ _ _ _ Ham) as [Hu [Hv [Hc _]]].
      pose proof (apply_change_nodes _ _ _ _ Hc) as Hns.
      assert (Hk : forall k, is_Some (p !! k) <-> k ∈ g_nodes G1).
      { rewrite Hns. apply prev_cc_mismatch_false; [apply Hwf | done]. }
      destruct (incremental_loop_ok G1 p d.1 d.2 norm Hk) as [cc Hcc].
      rewrite Hcc in Hcall.
      destruct (revert_change _ _ _ _ _ Hc) as [G'' [Hr Hedges]].
      rewrite Hr in Hcall. inversion Hcall; subst. apply Hedges.
    + rewrite (apply_and_measure_err _ _ _ _ _ _ Hwf Ham) in Hcall. by inversion Hcall.
  - intros Hd Hu Hv G' Hc.
    by rewrite incremental_none_unfold, Hc.
Qed.

Lemma incremental_restores_edge_set_witness :
  graph_wf path3 /\
  snd (incremental_closeness_centrality (1, 3) None true true path3) =
    mk_graph false [1; 2; 3] (map simple_edge [(1, 2); (2, 3)] ++ [mk_edge 1 3 []]).
Proof.
  assert (Hwf : graph_wf path3).
  { split; [vm_compute; repeat constructor; set_solver | repeat constructor; set_solver]. }
  split; [exact Hwf|].
  apply (proj2 (incremental_restores_edge_set path3 1 3 ∅ true true Hwf)).
  - reflexivity.
  - set_solver.
  - set_solver.
  - vm_compute. reflexivity.
Defined.

(** C2: with no previous result the insertion of 1-3 into the path 1-2-3
    is not reverted. *)
Lemma incremental_fast_path_keeps_change :
  has_edge (snd (incremental_closeness_centrality (1, 3) None true true path3)) 1 3 = true /\
  has_edge path3 1 3 = false.
Proof. vm_compute. split; reflexivity. Qed.

(** Lines 223-234 measure in the graph before an insertion. *)
Lemma apply_and_measure_insertion_path3 :
  apply_and_measure 1 3 true path3 =
  (Ok ([(1, 0); (2, 1); (3, 2)], [(1, 2); (2, 1); (3, 0)]),
   mk_graph false [1; 2; 3] (map simple_edge [(1, 2); (2, 3)] ++ [mk_edge 1 3 []])).
Proof. vm_compute. reflexivity. Qed.

(** C3: the claim says both endpoint maps are measured after the change;
    for the insertion of 1-3 into the path 1-2-3 the map from 1 gives node
    3 distance 2, its distance before the edge is added, not 1. *)
Lemma endpoint_distances_after_change_counterexample :
  ~ (forall G u v ins du dv G',
       apply_and_measure u v ins G = (Ok (du, dv), G') ->
       single_source_shortest_path_length G' u = Ok du /\
       single_source_shortest_path_length G' v = Ok dv).
Proof.
  intros Hall.
  destruct (Hall _ _ _ _ _ _ _ apply_and_measure_insertion_path3) as [H _].
  vm_compute in H. discriminate H.
Qed.

(** C3 (corrected).  The endpoint distance maps are those of the graph
    before the change for an insertion, and of the graph after the change
    for a deletion; the graph left by lines 223-234 is the changed one. *)
Theorem endpoint_distances_graph G u v ins du dv G' :
  apply_and_measure u v ins G = (Ok (du, dv), G') ->
  apply_change G (u, v) ins = Ok G' /\
  single_source_shortest_path_length (if ins then G else G') u = Ok du /\
  single_source_shortest_path_length (if ins then G else G') v = Ok dv.
Proof.
  intros Ham. destruct (apply_and_measure_ok _ _ _ _ _ _ Ham) as [Hu [Hv [Hc Hd]]].
  injection Hd as -> ->. split; [done|].
  pose proof (apply_change_nodes _ _ _ _ Hc) as Hns.
  destruct ins; (split; apply sssp_node; [rewrite ?Hns; done | rewrite ?Hns; done]).
Qed.

Lemma endpoint_distances_graph_witness :
  apply_and_measure 2 3 false path3 =
    (Ok ([(1, 1); (2, 0)], [(3, 0)]), mk_graph false [1; 2; 3] [simple_edge (1, 2)]) /\
  apply_change path3 (2, 3) false = Ok (mk_graph false [1; 2; 3] [simple_edge (1, 2)]) /\
  single_source_shortest_path_length (mk_graph false [1; 2; 3] [simple_edge (1, 2)]) 2 =
    Ok [(1, 1); (2, 0)] /\
  single_source_shortest_path_length (mk_graph false [1; 2; 3] [simple_edge (1, 2)]) 3 =
    Ok [(3, 0)].
Proof.
  assert (H : apply_and_measure 2 3 false path3 =
    (Ok ([(1, 1); (2, 0)], [(3, 0)]), mk_graph false [1; 2; 3] [simple_edge (1, 2)]))
    by (vm_compute; reflexivity).
  split; [exact H|]. exact (endpoint_distances_graph path3 2 3 false _ _ _ H).
Defined.

(** C4.  On the incremental path, a node [n] of the changed graph that
    both endpoint maps reach with distances differing by at most one keeps
    its previous value; any other node gets the value [closeness_centrality]
    computes for it alone (unweighted) on the changed graph. *)
Theorem incremental_node_values G u v p ins norm r G_final :
  incremental_closeness_centrality (u, v) (Some p) ins norm G = (Ok r, G_final) ->
  exists du dv G' m,
    apply_and_measure u v ins G = (Ok (du, dv), G') /\ r = CCDict m /\
    forall n, n ∈ g_nodes G' ->
      ((exists a b, dict_get du n = Some a /\ dict_get dv n = Some b /\
                    (Z.abs (Z.of_nat a - Z.of_nat b) <= 1)%Z) ->
       m !! n = p !! n) /\
      (~ (exists a b, dict_get du n = Some a /\ dict_get dv n = Some b /\
                      (Z.abs (Z.of_nat a - Z.of_nat b) <= 1)%Z) ->
       exists c, closeness_centrality G' (Some n) None norm = Ok (CCValue c) /\
                 m !! n = Some c).
Proof.
  intros Hcall.
  destruct (g_directed G) eqn:Hd.
  { rewrite incremental_directed_refused in Hcall by done. discriminate. }
  destruct (prev_cc_mismatch G p) eqn:Hm.
  { rewrite incremental_mismatch_refused in Hcall by done. discriminate. }
  rewrite incremental_some_unfold in Hcall by done.
  destruct (apply_and_measure u v ins G) as [[[du dv]|e] G'] eqn:Ham; [|discriminate].
  destruct (apply_and_measure_ok _ _ _ _ _ _ Ham) as [_ [_ [Hc _]]].
  pose proof (apply_change_directed _ _ _ _ Hc) as Hd'. rewrite Hd in Hd'.
  destruct (dict_loop _ _ _) as [cc|e] eqn:Hloop; [|discriminate].
  destruct ((if ins then remove_edge_m u v else add_edge_m u v) G') as [[?|?] ?];
    [|discriminate].
  injection Hcall as <- <-.
  exists du, dv, G', cc. split; [done|]. split; [done|].
  intros n Hn.
  destruct (dict_loop_ok_elem _ _ _ _ n Hloop Hn) as [c Hc'].
  pose proof (dict_loop_lookup _ _ _ _ n c Hloop Hn Hc') as Hcc.
  unfold incremental_node in Hc'. simpl in Hc'.
  assert (Hkeep : keep_node du dv n = true <->
                  exists a b, dict_get du n = Some a /\ dict_get dv n = Some b /\
                              (Z.abs (Z.of_nat a - Z.of_nat b) <= 1)%Z).
  { unfold keep_node. destruct (dict_get du n) as [a0|], (dict_get dv n) as [b0|];
      rewrite ?Z.leb_le; naive_solver. }
  split.
  - intros Hk. apply Hkeep in Hk. rewrite Hk in Hc'. rewrite Hcc.
    destruct (p !! n); [by inversion Hc' | discriminate].
  - intros Hk. rewrite <- Hkeep, not_true_iff_false in Hk. rewrite Hk in Hc'.
    exists c. split; [|done].
    unfold closeness_centrality. rewrite Hd'. simpl. simpl in Hc'. rewrite Hc'. simpl.
    by rewrite lookup_insert_eq.
Qed.

Lemma incremental_node_values_witness :
  exists du dv G' m,
    apply_and_measure 1 3 true path3 = (Ok (du, dv), G') /\
    CCDict (<[2 := 0%Q]> (<[3 := 4 # 4]> (<[1 := 4 # 4]> ∅))) = CCDict m /\
    forall n, n ∈ g_nodes G' ->
      ((exists a b, dict_get du n = Some a /\ dict_get dv n = Some b /\
                    (Z.abs (Z.of_nat a - Z.of_nat b) <= 1)%Z) ->
       m !! n = zeros3 !! n) /\
      (~ (exists a b, dict_get du n = Some a /\ dict_get dv n = Some b /\
                      (Z.abs (Z.of_nat a - Z.of_nat b) <= 1)%Z) ->
       exists c, closeness_centrality G' (Some n) None true = Ok (CCValue c) /\
                 m !! n = Some c).
Proof.
  apply (incremental_node_values path3 1 3 zeros3 true true _
           (mk_graph false [1; 2; 3] (map simple_edge [(1, 2); (2, 3)] ++ [])) ).
  vm_compute. reflexivity.
Defined.

(** C6 (corrected).  On an undirected graph, a previous result whose key
    set differs from the node set is refused with the stale-cache
    NetworkXError of lines 212-214, and the graph is returned untouched. *)
Theorem incremental_stale_cache G e p ins norm :
  g_directed G = false -> NoDup (g_nodes G) ->
  ~ (forall k, is_Some (p !! k) <-> k ∈ g_nodes G) ->
  incremental_closeness_centrality e (Some p) ins norm G =
  (Err (NetworkXError stale_msg), G).
Proof.
  intros Hd Hnd Hk. apply incremental_mismatch_refused; [done|].
  apply not_false_iff_true. intros Hm. apply Hk. by apply prev_cc_mismatch_false.
Qed.

Lemma incremental_stale_cache_witness :
  g_directed path3 = false /\ NoDup (g_nodes path3) /\
  ~ (forall k, is_Some ((<[1 := 0%Q]> ∅ : gmap node Q) !! k) <-> k ∈ g_nodes path3) /\
  incremental_closeness_centrality (1, 3) (Some (<[1 := 0%Q]> ∅)) true true path3 =
  (Err (NetworkXError stale_msg), path3).
Proof.
  assert (Hnd : NoDup (g_nodes path3)) by (vm_compute; repeat constructor; set_solver).
  assert (Hk : ~ (forall k, is_Some ((<[1 := 0%Q]> ∅ : gmap node Q) !! k) <-> k ∈ g_nodes path3)).
  { intros H. destruct (proj2 (H 2)) as [c Hc]; [simpl; set_solver|].
    vm_compute in Hc. discriminate. }
  split; [reflexivity|]. split; [exact Hnd|]. split; [exact Hk|].
  exact (incremental_stale_cache path3 (1, 3) _ true true eq_refl Hnd Hk).
Defined.

(** C6: on a directed graph the directed-graph refusal comes first, so a
    stale previous result is not reported as such. *)
Lemma stale_cache_directed_counterexample :
  ~ (forall k, is_Some ((<[1 := 0%Q]> ∅ : gmap node Q) !! k) <->
               k ∈ g_nodes (dgraph [1; 2] [(1, 2)])) /\
  incremental_closeness_centrality (1, 2) (Some (<[1 := 0%Q]> ∅)) false true
    (dgraph [1; 2] [(1, 2)]) <>
  (Err (NetworkXError stale_msg), dgraph [1; 2] [(1, 2)]).
Proof.
  split.
  - intros H. destruct (proj2 (H 2)) as [c Hc]; [simpl; set_solver|].
    vm_compute in Hc. discriminate.
  - vm_compute. discriminate.
Qed.

(** C7.  On a directed graph the incremental update raises
    NetworkXNotImplemented (the spec's UnsupportedGraphType) and leaves the
    graph untouched, whatever the other arguments. *)
Theorem incremental_rejects_directed G e prev ins norm :
  g_directed G = true ->
  incremental_closeness_centrality e prev ins norm G = (Err NetworkXNotImplemented, G).
Proof. apply incremental_directed_refused. Qed.

Lemma incremental_rejects_directed_witness :
  incremental_closeness_centrality (1, 2) None true true (dgraph [1; 2] []) =
  (Err NetworkXNotImplemented, dgraph [1; 2] []).
Proof. apply incremental_rejects_directed. reflexivity. Defined.

(** C8.  With no previous result, on an undirected graph whose nodes
    include both endpoints, the change is applied and kept, and the call
    returns exactly [closeness_centrality] of the changed graph (called with
    its defaults: unweighted, Wasserman-Faust scaling on). *)
Theorem incremental_fast_path G u v ins norm G' :
  g_directed G = false -> u ∈ g_nodes G -> v ∈ g_nodes G ->
  apply_change G (u, v) ins = Ok G' ->
  incremental_closeness_centrality (u, v) None ins norm G =
  (closeness_centrality G' None None true, G').
Proof.
  intros Hd Hu Hv Hc. by rewrite incremental_none_unfold, Hc.
Qed.

Lemma incremental_fast_path_witness :
  incremental_closeness_centrality (2, 3) None false false path3 =
  (closeness_centrality (ugraph [1; 2; 3] [(1, 2)]) None None true,
   ugraph [1; 2; 3] [(1, 2)]).
Proof.
  apply incremental_fast_path; [reflexivity | set_solver | set_solver |].
  vm_compute. reflexivity.
Defined.

(** C10 (corrected).  With the graph collaborator refusing duplicate
    insertions, inserting an edge the undirected graph already has, with a
    previous result that fits, raises GraphMutationError at line 228 and
    the graph is left exactly as it was: no edge is lost. *)
Theorem incremental_duplicate_insertion G u v p norm :
  g_directed G = false -> NoDup (g_nodes G) ->
  u ∈ g_nodes G -> v ∈ g_nodes G -> has_edge G u v = true ->
  (forall k, is_Some (p !! k) <-> k ∈ g_nodes G) ->
  incremental_closeness_centrality (u, v) (Some p) true norm G =
  (Err GraphMutationError, G).
Proof.
  intros Hd Hnd Hu Hv Huv Hk.
  rewrite incremental_some_unfold; [|done | by apply prev_cc_mismatch_false].
  rewrite (apply_and_measure_spec u v true G Hu Hv).
  unfold apply_change, add_edge; simpl. by rewrite Huv.
Qed.

Lemma incremental_duplicate_insertion_witness :
  incremental_closeness_centrality (1, 2) (Some zeros3) true true path3 =
  (Err GraphMutationError, path3).
Proof.
  apply incremental_duplicate_insertion; [reflexivity | vm_compute; repeat constructor; set_solver
    | set_solver | set_solver | reflexivity |].
  intros k. unfold zeros3. rewrite !lookup_insert_is_Some', lookup_empty. simpl.
  rewrite !elem_of_cons, elem_of_nil. split; [intros [?|[?|[?|[]%is_Some_None]]]; auto|].
  intros [?|[?|[?|[]]]]; auto.
Defined.

(** C10: the duplicate insertion of 1-2 into the path 1-2-3 does not
    complete: it raises. *)
Lemma duplicate_insertion_raises :
  has_edge path3 1 2 = true /\
  fst (incremental_closeness_centrality (1, 2) (Some zeros3) true true path3) =
  Err GraphMutationError.
Proof. vm_compute. split; reflexivity. Qed.

(** C9.  On the path 1-2-3-4-5, unweighted with Wasserman-Faust scaling,
    the centre 3 has closeness 4/6. *)
Theorem path5_center_closeness :
  exists m c, closeness_centrality path5 None None true = Ok (CCDict m) /\
              m !! 3 = Some c /\ (c == 4 # 6)%Q.
Proof.
  exists (match closeness_centrality path5 None None true with
          | Ok (CCDict m) => m | _ => ∅ end), (16 # 24).
  split; [vm_compute; reflexivity|]. split; [vm_compute; reflexivity|].
  reflexivity.
Qed.

(* ================================================================= *)
(** ** The range of closeness values (lines 119-134) *)

Lemma length_omap {A B} (f : A -> option B) (l : list A) :
  length (omap f l) <= length l.
Proof.
  induction l as [|x l IH]; [simpl; lia|]. cbn [omap list_omap].
  destruct (f x); cbn [length]; lia.
Qed.

Lemma sum_values_nat (l : list (node * nat)) a :
  (fold_left (fun acc p => (acc + p.2)%Q)
     (map (fun p => (p.1, inject_Z (Z.of_nat p.2))) l) a ==
   a + inject_Z (Z.of_nat (foldr Nat.add 0%nat (map snd l))))%Q.
Proof.
  revert a. induction l as [|x l IH]; intros a; simpl; [ring|].
  rewrite IH, Nat2Z.inj_add, inject_Z_plus. ring.
Qed.

(** Only the source is at level 0, every other reachable node adds at
    least one hop to the distance sum. *)
Lemma sssp_map_count G s l :
  NoDup l ->
  length (omap (fun w => (fun d => (w, d)) <$> level_of G s w) l) <=
  foldr Nat.add 0%nat (map snd (omap (fun w => (fun d => (w, d)) <$> level_of G s w) l)) +
  (if bool_decide (s ∈ l) then 1 else 0).
Proof.
  induction l as [|w l IH]; intros Hnd; [simpl; lia|].
  apply NoDup_cons in Hnd as [Hw Hnd]. specialize (IH Hnd).
  cbn [omap list_omap]. destruct (level_of G s w) as [d|] eqn:Hl; cbn [fmap option_fmap option_map].
  - cbn [length map foldr snd]. destruct (decide (w = s)) as [->|Hne].
    + rewrite bool_decide_true by (apply elem_of_cons; by left).
      rewrite bool_decide_false in IH by done. lia.
    + assert (d <> 0) by (intros ->; apply Hne; exact (level_of_zero _ _ _ Hl)).
      assert (bool_decide (s ∈ w :: l) = bool_decide (s ∈ l)) as ->.
      { apply bool_decide_ext. rewrite elem_of_cons. naive_solver. }
      lia.
  - destruct (bool_decide (s ∈ l)) eqn:E1, (bool_decide (s ∈ w :: l)) eqn:E2; try lia.
    exfalso. apply bool_decide_eq_true in E1. apply bool_decide_eq_false in E2.
    apply E2, elem_of_cons. by right.
Qed.

Lemma Qdiv_unit a b : (0 <= a -> a <= b -> 0 < b -> 0 <= a / b <= 1)%Q.
Proof.
  intros Ha Hab Hb. split.
  - apply Qle_shift_div_l; [done|]. by rewrite Qmult_0_l.
  - apply Qle_shift_div_r; [done|]. by rewrite Qmult_1_l.
Qed.

(** Lines 121-130 on an unweighted distance map with at most [N] entries
    and a distance sum of at least its size minus one. *)
Lemma node_closeness_unit (l : list (node * nat)) N wf :
  length l <= N -> length l <= foldr Nat.add 0%nat (map snd l) + 1 ->
  (0 <= node_closeness (map (fun p => (p.1, inject_Z (Z.of_nat p.2))) l) N wf <= 1)%Q.
Proof.
  intros HN Hs. unfold node_closeness. cbv zeta. rewrite length_map.
  assert (Ht : (sum_values (map (fun p => (p.1, inject_Z (Z.of_nat p.2))) l) ==
                inject_Z (Z.of_nat (foldr Nat.add 0%nat (map snd l))))%Q).
  { unfold sum_values. rewrite sum_values_nat. ring. }
  destruct (negb (Qle_bool (sum_values _) 0) && Nat.ltb 1 N) eqn:Hc;
    [|split; [apply Qle_refl|discriminate]].
  apply andb_true_iff in Hc as [Hpos HN1].
  apply negb_true_iff in Hpos. apply Nat.ltb_lt in HN1.
  assert (Hlt : (0 < sum_values (map (fun p => (p.1, inject_Z (Z.of_nat p.2))) l))%Q).
  { apply Qnot_le_lt. intros Hle. apply Qle_bool_iff in Hle. congruence. }
  rewrite Ht in Hlt. change 0%Q with (inject_Z 0) in Hlt.
  rewrite <- Zlt_Qlt in Hlt.
  assert (Hl1 : 1 <= length l) by (destruct l; simpl in *; lia).
  assert (Hc1 : (0 <= (Qnat (length l) - 1) /
                  sum_values (map (fun p => (p.1, inject_Z (Z.of_nat p.2))) l) <= 1)%Q).
  { rewrite Ht. apply Qdiv_unit.
    - unfold Qnat, Qle, Qminus, Qplus. simpl. lia.
    - unfold Qnat, Qle, Qminus, Qplus. simpl. lia.
    - change 0%Q with (inject_Z 0). rewrite <- Zlt_Qlt. lia. }
  destruct wf; [|exact Hc1].
  assert (Hc2 : (0 <= (Qnat (length l) - 1) / (Qnat N - 1) <= 1)%Q).
  { apply Qdiv_unit; unfold Qnat, Qlt, Qle, Qminus, Qplus; simpl; lia. }
  split.
  - apply Qmult_le_0_compat; [apply Hc1|apply Hc2].
  - rewrite <- (Qmult_1_l 1). by apply Qmult_le_compat_nonneg.
Qed.

(** The value [closeness_centrality] stores for a node is the per-node
    formula over that node's distance map in the (reversed if directed)
    graph. *)
Lemma closeness_centrality_value G distance wf_improved m n c :
  closeness_centrality G None distance wf_improved = Ok (CCDict m) ->
  m !! n = Some c ->
  n ∈ g_nodes G /\
  exists sp, path_length distance (if g_directed G then reverse G else G) n = Ok sp /\
             c = node_closeness sp (length (g_nodes G)) wf_improved.
Proof.
  intros Hcc Hm. unfold closeness_centrality in Hcc. cbv zeta in Hcc.
  assert (Hnodes : g_nodes (if g_directed G then reverse G else G) = g_nodes G)
    by (destruct (g_directed G); reflexivity).
  rewrite Hnodes in Hcc.
  destruct (dict_loop (g_nodes G) _ ∅) as [m'|e] eqn:Hl; simpl in Hcc; [|discriminate].
  injection Hcc as <-.
  assert (Hn : n ∈ g_nodes G).
  { destruct (decide (n ∈ g_nodes G)) as [Hin|Hnin]; [done|].
    rewrite (dict_loop_lookup_notin _ _ _ _ _ Hl Hnin), lookup_empty in Hm. discriminate. }
  split; [done|].
  destruct (dict_loop_ok_elem _ _ _ _ _ Hl Hn) as [c' Hc'].
  rewrite (dict_loop_lookup _ _ _ _ _ _ Hl Hn Hc') in Hm. injection Hm as <-.
  destruct (path_length distance _ n) as [sp|e] eqn:Hsp; simpl in Hc'; [|discriminate].
  injection Hc' as <-. by exists sp.
Qed.

(** Lines 121-130 never give a negative value, whatever the distances: a
    positive sum needs a nonempty map, so [len(sp) - 1 >= 0]. *)
Lemma node_closeness_nonneg sp N wf :
  (0 <= node_closeness sp N wf)%Q.
Proof.
  unfold node_closeness. cbv zeta.
  destruct (negb (Qle_bool (sum_values sp) 0) && Nat.ltb 1 N) eqn:Hc; [|apply Qle_refl].
  apply andb_true_iff in Hc as [Hpos HN1].
  apply negb_true_iff in Hpos. apply Nat.ltb_lt in HN1.
  assert (Hlt : (0 < sum_values sp)%Q).
  { apply Qnot_le_lt. intros Hle. apply Qle_bool_iff in Hle. congruence. }
  assert (Hl1 : 1 <= length sp).
  { destruct sp; [|simpl; lia]. exfalso. vm_compute in Hpos. discriminate. }
  assert (Hnum : (0 <= Qnat (length sp) - 1)%Q).
  { unfold Qnat, Qle, Qminus, Qplus. simpl. lia. }
  assert (Hc1 : (0 <= (Qnat (length sp) - 1) / sum_values sp)%Q).
  { apply Qle_shift_div_l; [done|]. by rewrite Qmult_0_l. }
  destruct wf; [|exact Hc1].
  apply Qmult_le_0_compat; [exact Hc1|].
  apply Qle_shift_div_l; [unfold Qnat, Qlt, Qminus, Qplus; simpl; lia|].
  by rewrite Qmult_0_l.
Qed.

(** C5 (corrected).  The claim fails in weighted mode: on one edge of
    distance 1/2 each endpoint gets closeness 2. *)
Lemma weighted_closeness_above_one :
  ~ (forall G distance wf_improved m n c,
       closeness_centrality G None distance wf_improved = Ok (CCDict m) ->
       m !! n = Some c -> (0 <= c <= 1)%Q).
Proof.
  intros Hall.
  assert (Hcc : closeness_centrality half_edge None (Some "weight") true =
                Ok (CCDict (<[2 := 2 # 1]> (<[1 := 2 # 1]> ∅)))) by (vm_compute; reflexivity).
  destruct (Hall _ _ _ _ 1 (2 # 1) Hcc) as [_ Hle]; [vm_compute; reflexivity|].
  vm_compute in Hle. apply Hle. reflexivity.
Qed.

(** C5, amended.  Every value in the dict of [closeness_centrality] is
    nonnegative, and is 0 when the graph has at most one node or the
    node's distance sum is 0 (in every mode); with unweighted distances on
    a well-formed graph it also is at most 1. *)
Theorem closeness_centrality_range G distance wf_improved m n c :
  closeness_centrality G None distance wf_improved = Ok (CCDict m) ->
  m !! n = Some c ->
  (length (g_nodes G) <= 1 -> c = 0%Q) /\
  (forall sp, path_length distance (if g_directed G then reverse G else G) n = Ok sp ->
              (sum_values sp == 0)%Q -> c = 0%Q) /\
  (0 <= c)%Q /\
  (distance = None -> graph_wf G -> (0 <= c <= 1)%Q).
Proof.
  intros Hcc Hm.
  destruct (closeness_centrality_value _ _ _ _ _ _ Hcc Hm) as [Hn [sp [Hsp ->]]].
  split; [|split; [|split; [apply node_closeness_nonneg|]]].
  - intros Hlen. unfold node_closeness.
    rewrite (proj2 (Nat.ltb_ge 1 _) Hlen), andb_false_r. reflexivity.
  - intros sp' Hsp' Hz. rewrite Hsp in Hsp'. injection Hsp' as <-.
    unfold node_closeness.
    assert (Hb : Qle_bool (sum_values sp) 0 = true)
      by (apply Qle_bool_iff; rewrite Hz; apply Qle_refl).
    rewrite Hb. reflexivity.
  - intros -> [Hnd _].
    set (G1 := if g_directed G then reverse G else G) in Hsp.
    assert (Hnodes : g_nodes G1 = g_nodes G)
      by (unfold G1; destruct (g_directed G); reflexivity).
    simpl in Hsp. unfold unweighted_path_length in Hsp.
    rewrite sssp_node in Hsp by (rewrite Hnodes; exact Hn).
    simpl in Hsp. injection Hsp as <-.
    apply node_closeness_unit.
    + rewrite <- Hnodes. apply length_omap.
    + pose proof (sssp_map_count G1 n (g_nodes G1)) as Hcount.
      rewrite Hnodes in Hcount at 1. specialize (Hcount Hnd).
      rewrite bool_decide_true in Hcount by (rewrite Hnodes; exact Hn).
      unfold sssp_map. exact Hcount.
Qed.

Lemma closeness_centrality_range_witness :
  closeness_centrality path3 None None true =
    Ok (CCDict (<[3 := 4 # 6]> (<[2 := 4 # 4]> (<[1 := 4 # 6]> ∅)))) /\
  (<[3 := 4 # 6]> (<[2 := 4 # 4]> (<[1 := 4 # 6]> ∅)) : gmap node Q) !! 2 = Some (4 # 4) /\
  ((length (g_nodes path3) <= 1 -> (4 # 4) = 0%Q) /\
   (forall sp, path_length None (if g_directed path3 then reverse path3 else path3) 2 = Ok sp ->
               (sum_values sp == 0)%Q -> (4 # 4) = 0%Q) /\
   (0 <= 4 # 4)%Q /\
   (None = @None string -> graph_wf path3 -> (0 <= 4 # 4 <= 1)%Q)).
Proof.
  assert (Hcc : closeness_centrality path3 None None true =
    Ok (CCDict (<[3 := 4 # 6]> (<[2 := 4 # 4]> (<[1 := 4 # 6]> ∅))))) by (vm_compute; reflexivity).
  split; [exact Hcc|]. split; [vm_compute; reflexivity|].
  exact (closeness_centrality_range path3 None true _ 2 (4 # 4) Hcc (eq_refl _)).
Defined.

(* ================================================================= *)
(** ** Hop levels are exact shortest walks *)

Lemma within_S_ext G s a b :
  (forall w, w ∈ within G s a <-> w ∈ within G s b) ->
  within G s (S a) = within G s (S b).
Proof.
  intros Hab. cbn [within]. apply list_filter_iff. intros w.
  rewrite !Is_true_true, !orb_true_iff, !memb_spec, !existsb_exists.
  setoid_rewrite <- list_elem_of_In. by setoid_rewrite Hab.
Qed.

Lemma within_stable G s j m :
  (forall w, w ∈ within G s j <-> w ∈ within G s (S j)) ->
  forall w, w ∈ within G s (j + m) <-> w ∈ within G s j.
Proof.
  intros Hj. induction m as [|m IH]; intros w; [by rewrite Nat.add_0_r|].
  rewrite Nat.add_succ_r, (within_S_ext G s (j + m) j IH). by rewrite <- Hj.
Qed.

Lemma within_walk_elem G s k w :
  graph_wf G -> s ∈ g_nodes G -> w ∈ within G s k <-> walk G s k w.
Proof. intros Hwf Hs. by rewrite <- memb_spec, within_walk. Qed.

Lemma within_subseteq_nodes G s k :
  graph_wf G -> s ∈ g_nodes G -> forall w, w ∈ within G s k -> w ∈ g_nodes G.
Proof.
  intros Hwf Hs w Hw. apply (within_walk_elem G s k w Hwf Hs) in Hw.
  by apply (walk_nodes G s k).
Qed.

(** Each level adds a node until the levels stop growing. *)
Lemma within_growth G s m :
  graph_wf G -> s ∈ g_nodes G ->
  (exists j, j < m /\ forall w, w ∈ within G s j <-> w ∈ within G s (S j)) \/
  m + 1 <= size (list_to_set (within G s m) : gset node).
Proof.
  intros Hwf Hs. induction m as [|m [[j [Hj Hst]]|IH]].
  - right. cbn [within]. rewrite list_to_set_cons, list_to_set_nil, union_empty_r_L.
    rewrite size_singleton. lia.
  - left. exists j. split; [lia | done].
  - destruct (decide ((list_to_set (within G s m) : gset node) =
                      list_to_set (within G s (S m)))) as [E|E].
    + left. exists m. split; [lia|]. intros w.
      rewrite <- !(elem_of_list_to_set (C := gset node)). by rewrite E.
    + right.
      assert (Hsub : (list_to_set (within G s m) : gset node) ⊂ list_to_set (within G s (S m))).
      { split.
        - intros w. rewrite !elem_of_list_to_set, !within_walk_elem by done.
          apply walk_stay.
        - intros Hsup. apply E. apply set_eq. intros w. split; [|apply Hsup].
          rewrite !elem_of_list_to_set, !within_walk_elem by done. apply walk_stay. }
      apply subset_size in Hsub. lia.
Qed.

(** A node reachable at all is reachable within [|G|] hops. *)
Lemma walk_bound G s k w :
  graph_wf G -> s ∈ g_nodes G -> walk G s k w -> walk G s (length (g_nodes G)) w.
Proof.
  intros Hwf Hs Hw.
  destruct (decide (k <= length (g_nodes G))) as [Hle|Hgt]; [by apply (walk_mono G s k)|].
  destruct (within_growth G s (length (g_nodes G)) Hwf Hs) as [[j [Hj Hst]]|Hsz].
  - apply (within_walk_elem G s k w Hwf Hs) in Hw.
    replace k with (j + (k - j)) in Hw by lia.
    apply (within_stable G s j (k - j) Hst) in Hw.
    apply (within_walk_elem G s j w Hwf Hs) in Hw. apply (walk_mono G s j); [done | lia].
  - exfalso.
    assert (Hsub : (list_to_set (within G s (length (g_nodes G))) : gset node) ⊆
                   list_to_set (g_nodes G)).
    { intros x. rewrite !elem_of_list_to_set. apply within_subseteq_nodes; done. }
    apply subseteq_size in Hsub.
    rewrite (size_list_to_set (C := gset node) (g_nodes G)) in Hsub by apply Hwf. lia.
Qed.

(** [level_of] is the length of a shortest walk, with no bound needed. *)
Lemma level_of_exact G s w d :
  graph_wf G -> s ∈ g_nodes G ->
  level_of G s w = Some d <-> walk G s d w /\ forall j, j < d -> ~ walk G s j w.
Proof.
  intros Hwf Hs. rewrite level_of_spec by done. split; [tauto|].
  intros [Hw Hmin]. split; [|done].
  destruct (decide (d <= length (g_nodes G))) as [|Hgt]; [done|].
  exfalso. apply (Hmin (length (g_nodes G))); [lia|]. by apply (walk_bound G s d).
Qed.

Lemma sssp_map_elem G s w d :
  (w, d) ∈ sssp_map G s <-> w ∈ g_nodes G /\ level_of G s w = Some d.
Proof.
  unfold sssp_map. rewrite list_elem_of_omap. split.
  - intros [x [Hx Hf]]. destruct (level_of G s x) eqn:Hl; simpl in Hf; [|discriminate].
    injection Hf as -> ->. done.
  - intros [Hw Hl]. exists w. rewrite Hl. done.
Qed.

Lemma sssp_map_keys G s l :
  NoDup l ->
  NoDup (map fst (omap (fun w => (fun d => (w, d)) <$> level_of G s w) l)) /\
  forall x, x ∈ map fst (omap (fun w => (fun d => (w, d)) <$> level_of G s w) l) -> x ∈ l.
Proof.
  induction l as [|w l IH]; intros Hnd; [split; [constructor | intros x Hx; by apply elem_of_nil in Hx]|].
  apply NoDup_cons in Hnd as [Hw Hnd]. destruct (IH Hnd) as [IHnd IHin].
  cbn [omap list_omap]. destruct (level_of G s w) as [d|]; cbn [fmap option_fmap option_map].
  - cbn [map fst]. split.
    + constructor; [|done]. intros Hin. by apply Hw, IHin.
    + intros x Hx. apply elem_of_cons in Hx as [->|Hx]; apply elem_of_cons; [by left | right; auto].
  - split; [done|]. intros x Hx. apply elem_of_cons. right. auto.
Qed.

(* ================================================================= *)
(** ** Reversed graphs *)

Lemma adjb_reverse G x y :
  g_directed G = true -> adjb (reverse G) x y = adjb G y x.
Proof.
  intros Hd. unfold adjb, arcs, reverse. cbn [g_directed g_edges]. rewrite Hd.
  induction (g_edges G) as [|e es IH]; [done|]. cbn [map flat_map app existsb].
  rewrite IH. f_equal. simpl. apply andb_comm.
Qed.

Lemma reverse_wf G : graph_wf G -> graph_wf (reverse G).
Proof.
  intros [Hnd Hes]. split; [exact Hnd|]. unfold reverse. cbn [g_edges g_nodes].
  induction (g_edges G) as [|e es IH]; simpl; constructor;
    inversion Hes as [|? ? He Hes']; subst; [simpl; tauto | by apply IH].
Qed.

Lemma walk_reverse G s k w :
  g_directed G = true -> walk (reverse G) s k w <-> walk G w k s.
Proof.
  intros Hd. split; intros Hw.
  - induction Hw as [|k w Hw IH|k x w Hw IH Hxw]; [constructor | by constructor |].
    apply (walk_front G w x); [by rewrite <- adjb_reverse | done].
  - induction Hw as [|k x Hw IH|k x y Hw IH Hxy]; [constructor | by constructor |].
    apply (walk_front (reverse G) y x); [by rewrite adjb_reverse | done].
Qed.

(** The graph [closeness_centrality] measures in: walks from [n] in it are
    walks into [n] in [G]. *)
Lemma measured_walks G n k w :
  walk (if g_directed G then reverse G else G) n k w <-> walk G w k n.
Proof.
  destruct (g_directed G) eqn:Hd; [by apply walk_reverse|].
  split; by apply walk_sym.
Qed.

(* ================================================================= *)
(** ** More of closeness_centrality *)

Lemma closeness_centrality_dom G distance wf_improved m :
  closeness_centrality G None distance wf_improved = Ok (CCDict m) ->
  dom m = list_to_set (g_nodes G).
Proof.
  intros Hcc. unfold closeness_centrality in Hcc. cbv zeta in Hcc.
  assert (Hnodes : g_nodes (if g_directed G then reverse G else G) = g_nodes G)
    by (destruct (g_directed G); reflexivity).
  rewrite Hnodes in Hcc.
  destruct (dict_loop (g_nodes G) _ ∅) as [m'|e] eqn:Hl; simpl in Hcc; [|discriminate].
  injection Hcc as <-. rewrite (dict_loop_dom _ _ _ _ Hl), dom_empty_L.
  apply union_empty_l_L.
Qed.

Lemma closeness_centrality_unweighted_ok G wf_improved :
  exists m, closeness_centrality G None None wf_improved = Ok (CCDict m).
Proof.
  unfold closeness_centrality. cbv zeta.
  destruct (dict_loop_total (g_nodes (if g_directed G then reverse G else G))
    (fun n => sp <-r path_length None (if g_directed G then reverse G else G) n;;
              Ok (node_closeness sp
                    (length (g_nodes (if g_directed G then reverse G else G))) wf_improved))
    ∅) as [m Hm].
  { intros x Hx. simpl. unfold unweighted_path_length. rewrite (sssp_node _ x Hx).
    simpl. by eexists. }
  rewrite Hm. by exists m.
Qed.

(** Lines 121-130 with and without the Wasserman-Faust factor, on an
    unweighted distance map as in [node_closeness_unit]. *)
Lemma node_closeness_wf_le (l : list (node * nat)) N :
  length l <= N -> length l <= foldr Nat.add 0%nat (map snd l) + 1 ->
  (0 <= node_closeness (map (fun p => (p.1, inject_Z (Z.of_nat p.2))) l) N true <=
   node_closeness (map (fun p => (p.1, inject_Z (Z.of_nat p.2))) l) N false)%Q.
Proof.
  intros HN Hs. unfold node_closeness. cbv zeta. rewrite length_map.
  assert (Ht : (sum_values (map (fun p => (p.1, inject_Z (Z.of_nat p.2))) l) ==
                inject_Z (Z.of_nat (foldr Nat.add 0%nat (map snd l))))%Q).
  { unfold sum_values. rewrite sum_values_nat. ring. }
  destruct (negb (Qle_bool (sum_values _) 0) && Nat.ltb 1 N) eqn:Hc;
    [|split; apply Qle_refl].
  apply andb_true_iff in Hc as [Hpos HN1].
  apply negb_true_iff in Hpos. apply Nat.ltb_lt in HN1.
  assert (Hlt : (0 < sum_values (map (fun p => (p.1, inject_Z (Z.of_nat p.2))) l))%Q).
  { apply Qnot_le_lt. intros Hle. apply Qle_bool_iff in Hle. congruence. }
  rewrite Ht in Hlt. change 0%Q with (inject_Z 0) in Hlt.
  rewrite <- Zlt_Qlt in Hlt.
  assert (Hl1 : 1 <= length l) by (destruct l; simpl in *; lia).
  assert (Hc1 : (0 <= (Qnat (length l) - 1) /
                  sum_values (map (fun p => (p.1, inject_Z (Z.of_nat p.2))) l) <= 1)%Q).
  { rewrite Ht. apply Qdiv_unit.
    - unfold Qnat, Qle, Qminus, Qplus. simpl. lia.
    - unfold Qnat, Qle, Qminus, Qplus. simpl. lia.
    - change 0%Q with (inject_Z 0). rewrite <- Zlt_Qlt. lia. }
  assert (Hc2 : (0 <= (Qnat (length l) - 1) / (Qnat N - 1) <= 1)%Q).
  { apply Qdiv_unit; unfold Qnat, Qlt, Qle, Qminus, Qplus; simpl; lia. }
  split.
  - apply Qmult_le_0_compat; [apply Hc1|apply Hc2].
  - set (c := ((Qnat (length l) - 1) / sum_values _)%Q).
    rewrite <- (Qmult_1_r c) at 2. apply Qmult_le_compat_nonneg; [|apply Hc2].
    split; [apply Hc1 | apply Qle_refl].
Qed.

(** The unweighted value of a node is the per-node formula over the
    sssp map of the measured graph; its facts as a lemma. *)
Lemma closeness_unweighted_map G wf_improved m n c :
  closeness_centrality G None None wf_improved = Ok (CCDict m) -> m !! n = Some c ->
  n ∈ g_nodes G /\
  c = node_closeness
        (map (fun p => (p.1, inject_Z (Z.of_nat p.2)))
             (sssp_map (if g_directed G then reverse G else G) n))
        (length (g_nodes G)) wf_improved.
Proof.
  intros Hcc Hm.
  destruct (closeness_centrality_value _ _ _ _ _ _ Hcc Hm) as [Hn [sp [Hsp ->]]].
  split; [done|].
  assert (Hnodes : g_nodes (if g_directed G then reverse G else G) = g_nodes G)
    by (destruct (g_directed G); reflexivity).
  simpl in Hsp. unfold unweighted_path_length in Hsp.
  rewrite sssp_node in Hsp by (rewrite Hnodes; exact Hn).
  simpl in Hsp. by injection Hsp as <-.
Qed.

Lemma node_closeness_full sp N :
  length sp = N -> (node_closeness sp N true == node_closeness sp N false)%Q.
Proof.
  intros Hlen. unfold node_closeness. cbv zeta.
  destruct (negb (Qle_bool (sum_values sp) 0) && Nat.ltb 1 N) eqn:Hc; [|reflexivity].
  apply andb_true_iff in Hc as [Hpos HN1]. apply Nat.ltb_lt in HN1.
  apply negb_true_iff in Hpos.
  rewrite Hlen. field. split.
  - intros Hz. assert (Qle_bool (sum_values sp) 0 = true)
      by (apply Qle_bool_iff; rewrite Hz; apply Qle_refl). congruence.
  - unfold Qnat, Qeq, Qminus, Qplus. simpl. lia.
Qed.

(* ================================================================= *)
(** ** More of incremental_closeness_centrality *)

(** The fast path, for any edge. *)
Lemma incremental_none_measure G u v ins norm :
  g_directed G = false ->
  incremental_closeness_centrality (u, v) None ins norm G =
  match apply_and_measure u v ins G with
  | (Ok _, G') => (closeness_centrality G' None None true, G')
  | (Err e, G1) => (Err e, G1)
  end.
Proof.
  intros Hd. unfold incremental_closeness_centrality.
  unfold mbind at 1. unfold mget at 1. rewrite Hd. simpl.
  unfold mbind, mret. simpl. by destruct (apply_and_measure u v ins G) as [[?|?] ?].
Qed.

(** Lines 225-226 run before [add_edge]: an endpoint that is not a node
    is refused by the oracle before the graph is touched. *)
Lemma apply_and_measure_missing u v G :
  ~ (u ∈ g_nodes G /\ v ∈ g_nodes G) ->
  apply_and_measure u v true G = (Err NodeNotFound, G).
Proof.
  intros Hn. unfold apply_and_measure, mbind, mget, mlift, mret.
  unfold single_source_shortest_path_length.
  destruct (memb u (g_nodes G)) eqn:Hu; [destruct (memb v (g_nodes G)) eqn:Hv|];
    try reflexivity.
  exfalso. apply Hn. by rewrite <- !memb_spec.
Qed.

(** Removing the edge just added gives back the graph. *)
Lemma remove_after_add G u v G' :
  add_edge G u v = Ok G' -> remove_edge G' u v = Ok G.
Proof.
  intros Ha. pose proof (add_edge_has _ _ _ _ Ha) as Hhas.
  assert (Habs : has_edge G u v = false) by (apply add_edge_ok_iff; by eexists).
  unfold add_edge in Ha. rewrite Habs in Ha. injection Ha as <-.
  unfold remove_edge. rewrite Hhas. cbn [g_directed g_nodes g_edges]. f_equal.
  rewrite filter_app.
  assert (Hkeep : forall l : list edge, (forall e, e ∈ l -> e ∈ g_edges G) ->
            filter (fun e : edge => negb (same_edge (mk_graph (g_directed G) (g_nodes G)
                       (g_edges G ++ [mk_edge u v []])) u v e)) l = l).
  { intros l. induction l as [|e l IH]; intros Hl; [done|].
    rewrite filter_cons_True.
    - f_equal. apply IH. intros x Hx. apply Hl, elem_of_cons. by right.
    - rewrite Is_true_true, negb_true_iff, <- not_true_iff_false. intros Hs.
      apply same_edge_spec in Hs. cbn [g_directed] in Hs.
      assert (Hadj : adjb G u v = true).
      { apply adjb_spec. exists e. split; [apply Hl, elem_of_cons; by left|].
        unfold arc_of. naive_solver. }
      unfold has_edge in Habs. congruence. }
  rewrite Hkeep by done.
  rewrite filter_cons_False.
  - rewrite app_nil_r. by destruct G.
  - rewrite Is_true_true, negb_true_iff, not_false_iff_true. apply same_edge_spec. by left.
Qed.

(** The exactness of the filtered update (the statement of C1), as a
    lemma for the round trip below. *)
Lemma incremental_update_exact G u v ins norm p G' :
  graph_wf G -> g_directed G = false -> u ∈ g_nodes G -> v ∈ g_nodes G ->
  closeness_centrality G None None norm = Ok (CCDict p) ->
  apply_change G (u, v) ins = Ok G' ->
  fst (incremental_closeness_centrality (u, v) (Some p) ins norm G) =
  closeness_centrality G' None None norm.
Proof.
  intros Hwf Hd Hu Hv Hp Hc.
  pose proof (apply_change_nodes _ _ _ _ Hc) as Hns.
  pose proof (apply_change_directed _ _ _ _ Hc) as Hd'. rewrite Hd in Hd'.
  rewrite closeness_centrality_undirected in Hp by done.
  destruct (dict_loop (g_nodes G) _ ∅) as [pm|e] eqn:Hloop; [|discriminate].
  injection Hp as <-.
  assert (Hkeys : forall k, is_Some (pm !! k) <-> k ∈ g_nodes G).
  { intros k. rewrite <- elem_of_dom, (dict_loop_dom _ _ _ _ Hloop), dom_empty_L.
    rewrite union_empty_l_L. apply elem_of_list_to_set. }
  rewrite incremental_some_unfold; [|done | by apply prev_cc_mismatch_false; [apply Hwf|]].
  rewrite (apply_and_measure_spec u v ins G Hu Hv), Hc. simpl.
  rewrite closeness_centrality_undirected by done.
  rewrite (dict_loop_ext (g_nodes G') _ (fun n =>
             sp <-r path_length None G' n;;
             Ok (node_closeness sp (length (g_nodes G')) norm))).
  2:{ intros x Hx. unfold incremental_node.
      destruct (keep_node _ _ x) eqn:Hk; [|reflexivity].
      rewrite Hns in Hx.
      destruct (dict_loop_ok_elem _ _ _ _ x Hloop Hx) as [c Hfc].
      rewrite (dict_loop_lookup _ _ _ _ x c Hloop Hx Hfc).
      revert Hfc. simpl. unfold unweighted_path_length.
      rewrite (sssp_node G x Hx), (sssp_node G' x); [|by rewrite Hns]. simpl.
      rewrite (keep_node_sssp_map G u v ins G' x Hwf Hd Hu Hv Hc Hx Hk), Hns.
      intros H. by rewrite H. }
  destruct (dict_loop_total (g_nodes G') (fun n =>
             sp <-r path_length None G' n;;
             Ok (node_closeness sp (length (g_nodes G')) norm)) ∅) as [cc Hcc].
  { intros x Hx. simpl. unfold unweighted_path_length. rewrite (sssp_node G' x Hx).
    simpl. by eexists. }
  rewrite Hcc.
  destruct (revert_change _ _ _ _ _ Hc) as [G'' [Hr _]]. by rewrite Hr.
Qed.

(* ================================================================= *)
(** ** Further properties of closeness_centrality *)

(** Lines 115-118 and 131-132: asking for one node [u] gives the value
    the full dict holds for it. *)
Theorem closeness_single_node_agrees G distance wf_improved m x :
  closeness_centrality G None distance wf_improved = Ok (CCDict m) ->
  x ∈ g_nodes G ->
  exists c, m !! x = Some c /\
            closeness_centrality G (Some x) distance wf_improved = Ok (CCValue c).
Proof.
  intros Hcc Hx. unfold closeness_centrality in Hcc |- *. cbv zeta in Hcc |- *.
  assert (Hnodes : g_nodes (if g_directed G then reverse G else G) = g_nodes G)
    by (destruct (g_directed G); reflexivity).
  rewrite Hnodes in Hcc |- *.
  destruct (dict_loop (g_nodes G) _ ∅) as [m'|e] eqn:Hl; simpl in Hcc; [|discriminate].
  injection Hcc as <-.
  destruct (dict_loop_ok_elem _ _ _ _ _ Hl Hx) as [c Hc].
  exists c. split; [exact (dict_loop_lookup _ _ _ _ _ _ Hl Hx Hc)|].
  cbn [dict_loop]. cbv beta in Hc |- *.
  destruct (path_length distance _ x) as [sp|e] eqn:Hp; cbn [rbind] in Hc |- *; [|discriminate].
  injection Hc as <-. cbn [dict_loop]. by rewrite lookup_insert_eq.
Qed.

Lemma closeness_single_node_agrees_witness :
  closeness_centrality path3 None None true =
    Ok (CCDict (match closeness_centrality path3 None None true with
                | Ok (CCDict m) => m | _ => ∅ end)) /\ 2 ∈ g_nodes path3 /\
  exists c, (match closeness_centrality path3 None None true with
             | Ok (CCDict m) => m | _ => ∅ end) !! 2 = Some c /\
            closeness_centrality path3 (Some 2) None true = Ok (CCValue c).
Proof.
  assert (Hcc : closeness_centrality path3 None None true =
    Ok (CCDict (match closeness_centrality path3 None None true with
                | Ok (CCDict m) => m | _ => ∅ end))) by (vm_compute; reflexivity).
  assert (Hx : 2 ∈ g_nodes path3) by set_solver.
  split; [exact Hcc|]. split; [exact Hx|].
  exact (closeness_single_node_agrees path3 None true _ 2 Hcc Hx).
Defined.

(** Lines 118-121: asking for a [u] that is not a node raises the
    oracle's NodeNotFound, with unweighted and weighted distances alike. *)
Theorem closeness_single_node_missing G distance wf_improved x :
  x ∉ g_nodes G ->
  closeness_centrality G (Some x) distance wf_improved = Err NodeNotFound.
Proof.
  intros Hx. unfold closeness_centrality. cbv zeta.
  assert (Hm : memb x (g_nodes (if g_directed G then reverse G else G)) = false).
  { apply not_true_iff_false. rewrite memb_spec. by destruct (g_directed G). }
  cbn [dict_loop]. cbv beta.
  unfold path_length, single_source_dijkstra_path_length, unweighted_path_length,
    single_source_shortest_path_length.
  destruct distance; rewrite Hm; reflexivity.
Qed.

Lemma closeness_single_node_missing_witness :
  (7 ∉ g_nodes path3) /\
  closeness_centrality path3 (Some 7) (Some "weight") false = Err NodeNotFound.
Proof.
  assert (Hx : 7 ∉ g_nodes path3) by (vm_compute; set_solver).
  split; [exact Hx|]. exact (closeness_single_node_missing path3 (Some "weight") false 7 Hx).
Defined.

(** With unweighted distances the dict is always computed, and its keys
    are exactly the graph's nodes. *)
Theorem closeness_unweighted_total G wf_improved :
  exists m, closeness_centrality G None None wf_improved = Ok (CCDict m) /\
            dom m = list_to_set (g_nodes G).
Proof.
  destruct (closeness_centrality_unweighted_ok G wf_improved) as [m Hm].
  exists m. split; [done|]. by apply (closeness_centrality_dom G None wf_improved).
Qed.

(** In every mode, a dict that is returned has exactly the graph's nodes
    as keys. *)
Theorem closeness_dict_keys G distance wf_improved m :
  closeness_centrality G None distance wf_improved = Ok (CCDict m) ->
  dom m = list_to_set (g_nodes G).
Proof. apply closeness_centrality_dom. Qed.

Lemma closeness_dict_keys_witness :
  closeness_centrality half_edge None (Some "weight") true =
    Ok (CCDict (<[2 := 2%Q]> (<[1 := 2%Q]> ∅))) /\
  dom (<[2 := 2%Q]> (<[1 := 2%Q]> ∅) : gmap node Q) = list_to_set (g_nodes half_edge).
Proof.
  assert (Hcc : closeness_centrality half_edge None (Some "weight") true =
    Ok (CCDict (<[2 := 2%Q]> (<[1 := 2%Q]> ∅)))) by (vm_compute; reflexivity).
  split; [exact Hcc|]. exact (closeness_dict_keys half_edge _ true _ Hcc).
Defined.

(** Lines 126-128: for a node whose distance map covers the whole graph
    (it reaches every node), the Wasserman-Faust scaling changes nothing,
    in every mode. *)
Theorem closeness_wf_full_reach G distance m1 m2 n c1 c2 sp :
  closeness_centrality G None distance true = Ok (CCDict m1) ->
  closeness_centrality G None distance false = Ok (CCDict m2) ->
  m1 !! n = Some c1 -> m2 !! n = Some c2 ->
  path_length distance (if g_directed G then reverse G else G) n = Ok sp ->
  length sp = length (g_nodes G) ->
  (c1 == c2)%Q.
Proof.
  intros H1 H2 Hc1 Hc2 Hsp Hlen.
  destruct (closeness_centrality_value _ _ _ _ _ _ H1 Hc1) as [_ [sp1 [Hsp1 ->]]].
  destruct (closeness_centrality_value _ _ _ _ _ _ H2 Hc2) as [_ [sp2 [Hsp2 ->]]].
  rewrite Hsp in Hsp1, Hsp2. injection Hsp1 as <-. injection Hsp2 as <-.
  by apply node_closeness_full.
Qed.

Lemma closeness_wf_full_reach_witness :
  closeness_centrality path3 None None true =
    Ok (CCDict (match closeness_centrality path3 None None true with
                | Ok (CCDict m) => m | _ => ∅ end)) /\
  closeness_centrality path3 None None false =
    Ok (CCDict (match closeness_centrality path3 None None false with
                | Ok (CCDict m) => m | _ => ∅ end)) /\
  path_length None path3 2 = Ok [(1, 1%Q); (2, 0%Q); (3, 1%Q)] /\
  ((4 # 4) == (2 # 2))%Q.
Proof.
  assert (H1 : closeness_centrality path3 None None true =
    Ok (CCDict (match closeness_centrality path3 None None true with
                | Ok (CCDict m) => m | _ => ∅ end))) by (vm_compute; reflexivity).
  assert (H2 : closeness_centrality path3 None None false =
    Ok (CCDict (match closeness_centrality path3 None None false with
                | Ok (CCDict m) => m | _ => ∅ end))) by (vm_compute; reflexivity).
  assert (Hsp : path_length None path3 2 = Ok [(1, 1%Q); (2, 0%Q); (3, 1%Q)])
    by (vm_compute; reflexivity).
  split; [exact H1|]. split; [exact H2|]. split; [exact Hsp|].
  exact (closeness_wf_full_reach path3 None _ _ 2 (4 # 4) (2 # 2) _ H1 H2
           ltac:(vm_compute; reflexivity) ltac:(vm_compute; reflexivity) Hsp eq_refl).
Defined.

(** Lines 126-128 with unweighted distances on a well-formed graph: the
    Wasserman-Faust scaling never raises a value and never makes it
    negative. *)
Theorem closeness_wf_scaling_le G m1 m2 n c1 c2 :
  graph_wf G ->
  closeness_centrality G None None true = Ok (CCDict m1) ->
  closeness_centrality G None None false = Ok (CCDict m2) ->
  m1 !! n = Some c1 -> m2 !! n = Some c2 ->
  (0 <= c1 <= c2)%Q.
Proof.
  intros [Hnd _] H1 H2 Hc1 Hc2.
  destruct (closeness_unweighted_map _ _ _ _ _ H1 Hc1) as [Hn ->].
  destruct (closeness_unweighted_map _ _ _ _ _ H2 Hc2) as [_ ->].
  set (G1 := if g_directed G then reverse G else G).
  assert (Hnodes : g_nodes G1 = g_nodes G)
    by (unfold G1; destruct (g_directed G); reflexivity).
  apply node_closeness_wf_le.
  - rewrite <- Hnodes. apply length_omap.
  - pose proof (sssp_map_count G1 n (g_nodes G1)) as Hcount.
    rewrite Hnodes in Hcount at 1. specialize (Hcount Hnd).
    rewrite bool_decide_true in Hcount by (rewrite Hnodes; exact Hn).
    unfold sssp_map. exact Hcount.
Qed.

Lemma closeness_wf_scaling_le_witness :
  graph_wf path3 /\ (0 <= (4 # 6) <= (2 # 3))%Q.
Proof.
  assert (Hwf : graph_wf path3).
  { split; [vm_compute; repeat constructor; set_solver | repeat constructor; set_solver]. }
  split; [exact Hwf|].
  exact (closeness_wf_scaling_le path3 _ _ 1 (4 # 6) (2 # 3) Hwf
           ltac:(vm_compute; reflexivity) ltac:(vm_compute; reflexivity)
           ltac:(vm_compute; reflexivity) ltac:(vm_compute; reflexivity)).
Defined.

(** Lines 105-106 and 121: with unweighted distances the value of [n] is
    the formula over the nodes that can reach [n], each once, with the
    length of a shortest walk from it to [n] (incoming distance on a
    directed graph). *)
Theorem closeness_incoming_distances G wf_improved m n c :
  graph_wf G ->
  closeness_centrality G None None wf_improved = Ok (CCDict m) -> m !! n = Some c ->
  exists l, NoDup (map fst l) /\
    (forall w d, (w, d) ∈ l <-> walk G w d n /\ forall j, j < d -> ~ walk G w j n) /\
    c = node_closeness (map (fun p => (p.1, inject_Z (Z.of_nat p.2))) l)
                       (length (g_nodes G)) wf_improved.
Proof.
  intros Hwf Hcc Hm.
  destruct (closeness_unweighted_map _ _ _ _ _ Hcc Hm) as [Hn ->].
  set (G1 := if g_directed G then reverse G else G).
  assert (Hnodes : g_nodes G1 = g_nodes G)
    by (unfold G1; destruct (g_directed G); reflexivity).
  assert (Hwf1 : graph_wf G1)
    by (unfold G1; destruct (g_directed G); [by apply reverse_wf | done]).
  assert (Hn1 : n ∈ g_nodes G1) by (by rewrite Hnodes).
  exists (sssp_map G1 n). split; [|split; [|reflexivity]].
  - apply sssp_map_keys. apply Hwf1.
  - intros w d. rewrite sssp_map_elem, level_of_exact by done.
    assert (Hmw : forall k x, walk G1 n k x <-> walk G x k n) by apply measured_walks.
    setoid_rewrite Hmw. split; [tauto|].
    intros [Hw Hmin]. split; [|done].
    apply (walk_nodes G1 n d w Hwf1 Hn1). by apply Hmw.
Qed.

Definition dpath3 : graph := dgraph [1; 2; 3] [(1, 2); (2, 3)].

Lemma closeness_incoming_distances_witness :
  graph_wf dpath3 /\
  exists l, NoDup (map fst l) /\
    (forall w d, (w, d) ∈ l <-> walk dpath3 w d 3 /\ forall j, j < d -> ~ walk dpath3 w j 3) /\
    4 # 6 = node_closeness (map (fun p => (p.1, inject_Z (Z.of_nat p.2))) l) 3 true.
Proof.
  assert (Hwf : graph_wf dpath3).
  { split; [vm_compute; repeat constructor; set_solver | repeat constructor; set_solver]. }
  split; [exact Hwf|].
  exact (closeness_incoming_distances dpath3 true
           (match closeness_centrality dpath3 None None true with
            | Ok (CCDict m) => m | _ => ∅ end) 3 (4 # 6) Hwf
           ltac:(vm_compute; reflexivity) ltac:(vm_compute; reflexivity)).
Defined.

(* ================================================================= *)
(** ** Further properties of incremental_closeness_centrality *)

(** Whenever the incremental function returns, it returns a dict whose
    keys are exactly the nodes of the graph it was given. *)
Theorem incremental_result_keys e prev ins norm G r G_final :
  incremental_closeness_centrality e prev ins norm G = (Ok r, G_final) ->
  exists m, r = CCDict m /\ dom m = list_to_set (g_nodes G).
Proof.
  destruct e as [u v]. intros Hcall.
  destruct (g_directed G) eqn:Hd.
  { rewrite incremental_directed_refused in Hcall by done. discriminate. }
  destruct prev as [p|].
  - destruct (prev_cc_mismatch G p) eqn:Hm.
    { rewrite incremental_mismatch_refused in Hcall by done. discriminate. }
    rewrite incremental_some_unfold in Hcall by done.
    destruct (apply_and_measure u v ins G) as [[d|e] G1] eqn:Ham; [|discriminate].
    destruct (apply_and_measure_ok _ _ _ _ _ _ Ham) as [_ [_ [Hc _]]].
    pose proof (apply_change_nodes _ _ _ _ Hc) as Hns.
    destruct (dict_loop (g_nodes G1) _ ∅) as [cc|e] eqn:Hl; [|discriminate].
    destruct ((if ins then remove_edge_m u v else add_edge_m u v) G1) as [[?|?] ?];
      [|discriminate].
    injection Hcall as <- _. exists cc. split; [done|].
    rewrite (dict_loop_dom _ _ _ _ Hl), dom_empty_L, union_empty_l_L. by rewrite Hns.
  - rewrite incremental_none_measure in Hcall by done.
    destruct (apply_and_measure u v ins G) as [[d|e] G1] eqn:Ham; [|discriminate].
    destruct (apply_and_measure_ok _ _ _ _ _ _ Ham) as [_ [_ [Hc _]]].
    pose proof (apply_change_nodes _ _ _ _ Hc) as Hns.
    injection Hcall as Hcc _.
    destruct r as [m|c]; [|].
    + exists m. split; [done|]. rewrite <- Hns. by apply (closeness_centrality_dom G1 None true).
    + exfalso. destruct (closeness_centrality_unweighted_ok G1 true) as [m Hm]. congruence.
Qed.

Lemma incremental_result_keys_witness :
  exists m, CCDict (<[3 := 4 # 4]> (<[1 := 4 # 4]> (<[2 := 0%Q]> ∅))) = CCDict m /\
            dom m = list_to_set (g_nodes path3).
Proof.
  apply (incremental_result_keys (1, 3) (Some zeros3) true true path3 _ path3).
  vm_compute. reflexivity.
Defined.

(** Lines 223-226: inserting an edge with an endpoint that is not a node
    raises NodeNotFound from the distance oracle before the graph is
    mutated, with or without a (fitting) previous result. *)
Theorem incremental_insert_missing_endpoint G u v prev norm :
  g_directed G = false -> NoDup (g_nodes G) ->
  (forall p, prev = Some p -> forall k, is_Some (p !! k) <-> k ∈ g_nodes G) ->
  ~ (u ∈ g_nodes G /\ v ∈ g_nodes G) ->
  incremental_closeness_centrality (u, v) prev true norm G = (Err NodeNotFound, G).
Proof.
  intros Hd Hnd Hprev Hn.
  destruct prev as [p|].
  - rewrite incremental_some_unfold;
      [| done | by apply prev_cc_mismatch_false; [|apply Hprev]].
    by rewrite apply_and_measure_missing.
  - rewrite incremental_none_measure by done. by rewrite apply_and_measure_missing.
Qed.

Lemma incremental_insert_missing_endpoint_witness :
  ~ (1 ∈ g_nodes path3 /\ 7 ∈ g_nodes path3) /\
  incremental_closeness_centrality (1, 7) None true true path3 = (Err NodeNotFound, path3).
Proof.
  assert (Hn : ~ (1 ∈ g_nodes path3 /\ 7 ∈ g_nodes path3)).
  { intros [_ H]. vm_compute in H. set_solver. }
  split; [exact Hn|].
  apply (incremental_insert_missing_endpoint path3 1 7 None true eq_refl
           ltac:(vm_compute; repeat constructor; set_solver)); [|exact Hn].
  intros p Hp. discriminate.
Defined.

(** An insertion update followed, once the edge is in the graph, by the
    deletion update of the same edge gives back the previous result: both
    steps are exact, and deleting the edge restores the graph. *)
Theorem incremental_insert_then_delete G u v norm p G' :
  graph_wf G -> g_directed G = false -> u ∈ g_nodes G -> v ∈ g_nodes G ->
  closeness_centrality G None None norm = Ok (CCDict p) ->
  add_edge G u v = Ok G' ->
  exists p', fst (incremental_closeness_centrality (u, v) (Some p) true norm G) =
               Ok (CCDict p') /\
             fst (incremental_closeness_centrality (u, v) (Some p') false norm G') =
               Ok (CCDict p).
Proof.
  intros Hwf Hd Hu Hv Hp Ha.
  assert (Hc : apply_change G (u, v) true = Ok G') by exact Ha.
  rewrite (incremental_update_exact G u v true norm p G' Hwf Hd Hu Hv Hp Hc).
  destruct (closeness_centrality_unweighted_ok G' norm) as [p' Hp'].
  exists p'. split; [done|].
  pose proof (add_edge_nodes _ _ _ _ Ha) as Hns.
  assert (Hr : apply_change G' (u, v) false = Ok G) by exact (remove_after_add _ _ _ _ Ha).
  rewrite (incremental_update_exact G' u v false norm p' G); try done.
  - exact (add_edge_wf _ _ _ _ Hwf Hu Hv Ha).
  - by rewrite (add_edge_directed _ _ _ _ Ha).
  - by rewrite Hns.
  - by rewrite Hns.
Qed.

Lemma incremental_insert_then_delete_witness :
  exists p', fst (incremental_closeness_centrality (1, 3)
                    (Some (match closeness_centrality path3 None None true with
                           | Ok (CCDict m) => m | _ => ∅ end)) true true path3) =
               Ok (CCDict p') /\
             fst (incremental_closeness_centrality (1, 3) (Some p') false true
                    (mk_graph false [1; 2; 3] (map simple_edge [(1, 2); (2, 3)] ++ [mk_edge 1 3 []]))) =
               Ok (CCDict (match closeness_centrality path3 None None true with
                           | Ok (CCDict m) => m | _ => ∅ end)).
Proof.
  apply (incremental_insert_then_delete path3 1 3 true _ _).
  - split; [vm_compute; repeat constructor; set_solver | repeat constructor; set_solver].
  - reflexivity.
  - set_solver.
  - set_solver.
  - vm_compute; reflexivity.
  - vm_compute; reflexivity.
Defined.
